(** * Adaptive Runge-Kutta stepper of deepchem
      ([deepchem/utils/differentiation_utils/integrate/adaptive_rk.py])

    A shallow embedding of [rk_step], of the class [RKAdaptiveStepSolver]
    with its two concrete schemes [RK23] and [RK45], and of the driver
    [_rk_adaptive], followed by the properties of the specification.

    Tensors of the source are lists of scalars.  The scalar type is kept
    abstract ([Scalar]): the control flow of the stepper only looks at
    the results of comparisons, so every statement below holds for any
    arithmetic, IEEE floating point included.  The few statements that
    compare step sizes take the order laws they need as hypotheses; an
    instance over exact rationals ([QScalar]) runs the code. *)

From Stdlib Require Import List Bool Arith ZArith QArith Qabs Qpower Lia Lqa.
From Stdlib Require Import Relation_Operators.
Import ListNotations.
Close Scope Q_scope.

Set Implicit Arguments.

(** ** Scalars *)

(** The operations the source applies to 0-dimensional tensors and to
    Python floats.  [lit q] is the literal [q] in the working precision. *)
Class Scalar (R : Type) : Type := {
  lit : Q -> R;
  s_add : R -> R -> R;
  s_sub : R -> R -> R;
  s_mul : R -> R -> R;
  s_div : R -> R -> R;
  s_neg : R -> R;
  s_pow : R -> R -> R;          (* [x ** e] *)
  s_sqrt : R -> R;
  s_max : R -> R -> R;          (* [torch.max(a, b)] on 0-dim tensors *)
  s_ltb : R -> R -> bool;       (* [a < b] *)
  s_eqb : R -> R -> bool        (* [a == b] *)
}.

Declare Scope scalar_scope.
Delimit Scope scalar_scope with S.
Infix "+" := s_add : scalar_scope.
Infix "-" := s_sub : scalar_scope.
Infix "*" := s_mul : scalar_scope.
Infix "/" := s_div : scalar_scope.
Notation "- x" := (s_neg x) : scalar_scope.
Infix "**" := s_pow (at level 30, right associativity) : scalar_scope.
Infix "<?" := s_ltb : scalar_scope.
Infix "=?" := s_eqb : scalar_scope.

(** ** Exceptions and results *)

Inductive exn : Set :=
| TypeError | IndexError | AttributeError | ZeroDivisionError | RuntimeError.

(** [Timeout] stands for a [while] loop that has not finished within the
    fuel it was given; it is not an outcome of the Python code.  A
    result, once reached, does not depend on the fuel ([solve_fuel]). *)
Inductive result (A : Type) : Type :=
| Ok (a : A)
| Raise (e : exn)
| Timeout.
Arguments Ok {A} a.
Arguments Raise {A} e.
Arguments Timeout {A}.

Definition bind {A B} (m : result A) (k : A -> result B) : result B :=
  match m with
  | Ok a => k a
  | Raise e => Raise e
  | Timeout => Timeout
  end.

Notation "x <- m ;; k" := (bind m (fun x => k))
  (at level 61, m at next level, right associativity).
Notation "' p <- m ;; k" := (bind m (fun x => match x with p => k end))
  (at level 61, p pattern, m at next level, right associativity).

(** A class attribute that is [None] on the base class. *)
Definition attr {A} (o : option A) (e : exn) : result A :=
  match o with Some a => Ok a | None => Raise e end.

(** ** Tensors *)

Record Tensor (R : Type) : Type := mkTensor {
  tshape : list nat;
  tdata : list R
}.

Definition numel (shape : list nat) : nat := fold_right Nat.mul 1 shape.

Definition valid_tensor {R} (x : Tensor R) : Prop :=
  length (tdata x) = numel (tshape x).

(** [x.reshape(-1, *rest)]: torch infers the leading dimension from the
    number of elements, and refuses when the remaining dimensions
    multiply to zero (the leading one would be ambiguous) or do not
    divide the number of elements. *)
Definition reshape_infer {R} (data : list R) (rest : list nat)
  : result (Tensor R) :=
  let newsize := numel rest in
  if (newsize =? 0)%nat then Raise RuntimeError
  else if (length data mod newsize =? 0)%nat
       then Ok (mkTensor (length data / newsize :: rest) data)
       else Raise RuntimeError.

(** [x[i]] for a tensor with a leading dimension. *)
Definition tindex {R} (x : Tensor R) (i : nat) : option (Tensor R) :=
  match tshape x with
  | [] => None
  | d :: rest =>
      if (i <? d)%nat
      then Some (mkTensor rest
                   (firstn (numel rest) (skipn (i * numel rest) (tdata x))))
      else None
  end.

(** ** The tableau registry *)

(** Class attributes: each is [None] on the base class. *)
Record SolverClass : Type := mkClass {
  cls_A : option (list (list Q));
  cls_B : option (list Q);
  cls_C : option (list Q);
  cls_E : option (list Q);
  cls_n_stages : option nat;
  cls_error_estimator_order : option Z
}.

Definition RKAdaptiveStepSolver : SolverClass :=
  mkClass None None None None None None.

Definition RK23 : SolverClass :=
  (mkClass
    (Some [ [0; 0; 0];
            [1 # 2; 0; 0];
            [0; 3 # 4; 0] ])
    (Some [2 # 9; 1 # 3; 4 # 9])
    (Some [0; 1 # 2; 3 # 4])
    (Some [5 # 72; -1 # 12; -1 # 9; 1 # 8])
    (Some 3%nat)
    (Some 2%Z))%Q.

Definition RK45 : SolverClass :=
  (mkClass
    (Some [ [0; 0; 0; 0; 0];
            [1 # 5; 0; 0; 0; 0];
            [3 # 40; 9 # 40; 0; 0; 0];
            [44 # 45; -56 # 15; 32 # 9; 0; 0];
            [19372 # 6561; -25360 # 2187; 64448 # 6561; -212 # 729; 0];
            [9017 # 3168; -355 # 33; 46732 # 5247; 49 # 176; -5103 # 18656] ])
    (Some [35 # 384; 0; 500 # 1113; 125 # 192; -2187 # 6784; 11 # 84])
    (Some [0; 1 # 5; 3 # 10; 4 # 5; 8 # 9; 1])
    (Some [-71 # 57600; 0; 71 # 16695; -71 # 1920; 17253 # 339200;
           -22 # 525; 1 # 40])
    (Some 6%nat)
    (Some 4%Z))%Q.

(** The schemes the module registers ([rk23_adaptive], [rk45_adaptive]). *)
Definition registered : list SolverClass := [RK23; RK45].

(** Shape of a two-dimensional tensor given by nested rows. *)
Definition shape2 (M : list (list Q)) : nat * nat :=
  (length M, length (hd [] M)).

Definition rectangular (M : list (list Q)) : bool :=
  forallb (fun r => (length r =? length (hd [] M))%nat) M.

(** Every entry on or above the diagonal is zero. *)
Definition strictly_lower (M : list (list Q)) : bool :=
  forallb (fun ir => forallb (fun x => Qeq_bool x 0%Q) (skipn (fst ir) (snd ir)))
          (combine (seq 0 (length M)) M).

Definition head_is_zero (v : list Q) : bool :=
  match v with x :: _ => Qeq_bool x 0%Q | [] => false end.

(** The consistency check of the specification for a class with [s]
    stages, with the shape of [A] left to the caller. *)
Definition tableau_check_with (rowlen : nat) (c : SolverClass) : bool :=
  match cls_A c, cls_B c, cls_C c, cls_E c, cls_n_stages c with
  | Some A, Some B, Some C, Some E, Some s =>
      rectangular A
      && ((fst (shape2 A) =? s) && (snd (shape2 A) =? rowlen))%nat
      && strictly_lower A
      && (length B =? s)%nat && (length C =? s)%nat
      && (length E =? S s)%nat
      && head_is_zero C
  | _, _, _, _, _ => false
  end.

(** ... and with [A] of shape [(s, s)], as the specification has it. *)
Definition tableau_check (c : SolverClass) : bool :=
  match cls_n_stages c with
  | Some s => tableau_check_with s c
  | None => false
  end.

(** ** The stepper *)

Section Stepper.

Context {R : Type} `{Scalar R}.
Local Open Scope scalar_scope.

Definition zero : R := lit 0%Q.
Definition one : R := lit 1%Q.

(** Python's builtins [min(a, b)] and [max(a, b)]: the first argument
    unless the second is strictly smaller (resp. larger). *)
Definition py_min (a b : R) : R := if b <? a then b else a.
Definition py_max (a b : R) : R := if a <? b then b else a.

(** *** One-dimensional tensors

    The operations are those of torch on operands whose shapes agree;
    nothing is broadcast in the code modelled here. *)

Definition vec : Type := list R.

Fixpoint vadd (u v : vec) : vec :=
  match u, v with
  | x :: u', y :: v' => (x + y) :: vadd u' v'
  | _, _ => []
  end.

(** [v * h] and [h * v] for a 0-dim tensor [h]. *)
Definition vmul_r (v : vec) (h : R) : vec := map (fun x => x * h) v.
Definition vmul_l (h : R) (v : vec) : vec := map (fun x => h * x) v.
Definition vneg (v : vec) : vec := map s_neg v.

(** [torch.matmul(rows.T, coef)] for [rows] of width [n]: the
    combination of the rows with the coefficients. *)
Definition matmulT (n : nat) (rows : list vec) (coef : vec) : vec :=
  fold_left (fun acc ra => vadd acc (vmul_r (fst ra) (snd ra)))
            (combine rows coef) (repeat zero n).

(** [v.norm()]: the Euclidean norm. *)
Definition norm (v : vec) : R :=
  s_sqrt (fold_left (fun acc x => acc + x * x) v zero).

(** [K[i] = v] for [i] in range.  Out of range Python raises an
    [IndexError]; the buffer [setup] allocates has [n_stages + 1] rows,
    so every index [rk_step] writes to is in range for a tableau of
    [n_stages] rows. *)
Fixpoint set_row (K : list vec) (i : nat) (v : vec) : list vec :=
  match K, i with
  | [], _ => []
  | _ :: K', O => v :: K'
  | r :: K', S i' => r :: set_row K' i' v
  end.

(** *** [rk_step] *)

(** The loop [for s, (a, c) in enumerate(zip(A[1:], C[1:]), start=1)]. *)
Fixpoint rk_stages (func : R -> vec -> vec) (t : R) (y : vec) (h : R)
         (ac : list (vec * R)) (s : nat) (K : list vec) : list vec :=
  match ac with
  | [] => K
  | (a, c) :: rest =>
      let dy := vmul_r (matmulT (length y) (firstn s K) (firstn s a)) h in
      rk_stages func t y h rest (S s)
                (set_row K s (func (t + c * h) (vadd y dy)))
  end.

(** Returns [ynew], [fnew] and the stage buffer [K] as it leaves it. *)
Definition rk_step (func : R -> vec -> vec) (t : R) (y f : vec) (h : R)
           (abck : list vec * vec * vec * list vec)
  : vec * vec * list vec :=
  let '(A, B, C, K) := abck in
  let K := set_row K 0 f in
  let K := rk_stages func t y h (combine (tl A) (tl C)) 1 K in
  let ynew := vadd y (vmul_l h (matmulT (length y) (removelast K) B)) in
  let fnew := func (t + h) ynew in
  let K := set_row K (length K - 1) fnew in
  (ynew, fnew, K).

(** *** [RKAdaptiveStepSolver] *)

Record Solver : Type := mkSolver {
  solver_cls : SolverClass;
  atol : R;
  rtol : R;
  max_factor : R;
  min_factor : R;
  step_mult : R;
  error_exponent : R
}.

(** [__init__(self, atol, rtol)] on an instance of class [cls]. *)
Definition init (cls : SolverClass) (atol rtol : R) : result Solver :=
  order <- attr (cls_error_estimator_order cls) TypeError ;;
  let d := lit (inject_Z order) + lit 1%Q in
  if d =? zero then Raise ZeroDivisionError
  else Ok (mkSolver cls atol rtol
             (lit 10%Q) (lit (2 # 10)%Q) (lit (9 # 10)%Q)
             (lit (-1)%Q / d)).

(** What [setup] stores on the instance. *)
Record Session : Type := mkSession {
  se_self : Solver;
  se_yshape : list nat;
  se_y0 : vec;
  se_ts : list R;
  se_func : R -> vec -> vec;
  se_K : list vec;
  se_A : list vec;
  se_B : vec;
  se_C : vec;
  se_E : vec
}.

(** [setup(self, fcn, ts, y0, params)].  [uninit i j] is what the
    memory [torch.empty] hands out holds at row [i], column [j]. *)
Definition setup {P : Type} (self : Solver)
           (fcn : R -> Tensor R -> P -> Tensor R)
           (ts : list R) (y0 : Tensor R) (params : P)
           (uninit : nat -> nat -> R)
  : result Session :=
  let yshape := tshape y0 in
  let y0f := tdata y0 in
  match ts with
  | ts0 :: ts1 :: _ =>
      let direction := ts1 - ts0 in
      let '(ts', func) :=
        if direction <? zero
        then (map s_neg ts,
              fun t y => vneg (tdata (fcn (- t) (mkTensor yshape y) params)))
        else (ts,
              fun t y => tdata (fcn t (mkTensor yshape y) params)) in
      let n := length y0f in
      n_stages <- attr (cls_n_stages (solver_cls self)) TypeError ;;
      let K := map (fun i => map (uninit i) (seq 0 n))
                   (seq 0 (n_stages + 1)) in
      A <- attr (cls_A (solver_cls self)) AttributeError ;;
      B <- attr (cls_B (solver_cls self)) AttributeError ;;
      C <- attr (cls_C (solver_cls self)) AttributeError ;;
      E <- attr (cls_E (solver_cls self)) AttributeError ;;
      Ok (mkSession self yshape y0f ts' func K
            (map (map lit) A) (map lit B) (map lit C) (map lit E))
  | _ => Raise IndexError
  end.

(** [_error_norm(self, K, h)] *)
Definition _error_norm (s : Session) (K : list vec) (h : R) : R :=
  norm (vmul_r (matmulT (length (se_y0 s)) K (se_E s)) h).

Definition rk_state : Type := (vec * R * vec * R)%type.
Definition rk_f (st : rk_state) : vec := fst (fst (fst st)).
Definition rk_t (st : rk_state) : R := snd (fst (fst st)).
Definition rk_y (st : rk_state) : vec := snd (fst st).
Definition rk_h (st : rk_state) : R := snd st.

(** The local variables at the end of one pass through the body of the
    [while not accepted] loop of [_single_step].  The source updates [h]
    in place ([h *= factor]) on the accepted path; the tensor it mutates
    may be the one [hstep] names, but [tnew] and the kernel have used
    [hstep] by then, so the update is modelled as a new value of [h]. *)
Record Attempt : Type := mkAttempt {
  at_t1_achieved : bool;
  at_hstep : R;
  at_tnew : R;
  at_ynew : vec;
  at_fnew : vec;
  at_errnorm : R;
  at_accepted : bool;
  at_h : R;
  at_K : list vec
}.

Definition attempt (s : Session) (K : list vec) (f0 : vec) (t0 : R)
           (y0 : vec) (h : R) (t1 : R) (prev_rejected : bool) : Attempt :=
  let self := se_self s in
  let t1_achieved := t1 <? t0 + h in
  let hstep := if t1_achieved then t1 - t0 else h in
  let tnew := t0 + hstep in
  let abck := (se_A s, se_B s, se_C s, K) in
  let '(ynew, fnew, K) := rk_step (se_func s) t0 y0 f0 hstep abck in
  let scale := atol self + s_max (norm y0) (norm ynew) * rtol self in
  let errnorm := _error_norm s K hstep / scale in
  let accepted := errnorm <? one in
  let h :=
    if accepted && negb t1_achieved then
      let factor :=
        if errnorm =? zero then max_factor self
        else py_min (max_factor self)
                    (step_mult self * errnorm ** error_exponent self) in
      let factor := if prev_rejected then py_min one factor else factor in
      h * factor
    else if negb accepted then
      let factor :=
        py_max (min_factor self)
               (step_mult self * errnorm ** error_exponent self) in
      hstep * factor
    else h in
  mkAttempt t1_achieved hstep tnew ynew fnew errnorm accepted h K.

(** The [while not accepted] loop, entered with the given [h] and
    [prev_rejected]. *)
Fixpoint _single_step_loop (fuel : nat) (s : Session) (K : list vec)
         (f0 : vec) (t0 : R) (y0 : vec) (h : R) (t1 : R)
         (prev_rejected : bool) : result (rk_state * bool * list vec) :=
  match fuel with
  | O => Timeout
  | S fuel' =>
      let a := attempt s K f0 t0 y0 h t1 prev_rejected in
      if at_accepted a
      then Ok ((at_fnew a, at_tnew a, at_ynew a, at_h a),
               at_t1_achieved a, at_K a)
      else _single_step_loop fuel' s (at_K a) f0 t0 y0 (at_h a) t1
                             (negb (at_accepted a))
  end.

Definition _single_step (fuel : nat) (s : Session) (K : list vec)
           (st : rk_state) (t1 : R) : result (rk_state * bool * list vec) :=
  let '(f0, t0, y0, h) := st in
  _single_step_loop fuel s K f0 t0 y0 h t1 false.

(** The [while not t1_achieved] loop of [_step]. *)
Fixpoint _step_loop (n fuel : nat) (s : Session) (K : list vec)
         (st : rk_state) (t1 : R) : result (rk_state * list vec) :=
  match n with
  | O => Timeout
  | S n' =>
      ' (st', t1_achieved, K') <- _single_step fuel s K st t1 ;;
      if (t1_achieved : bool) then Ok (st', K')
      else _step_loop n' fuel s K' st' t1
  end.

Definition _step (fuel : nat) (s : Session) (K : list vec)
           (st : rk_state) (t1 : R) : result (rk_state * list vec) :=
  _step_loop fuel fuel s K st t1.

(** The loop [for i in range(1, len(ts))] of [solve]: the rows
    [yt[1], yt[2], ...] in the order they are written.  Each row of [yt]
    is written once, so [yt] is built as the list of its rows. *)
Fixpoint solve_loop (fuel : nat) (s : Session) (K : list vec)
         (st : rk_state) (targets : list R) : result (list vec) :=
  match targets with
  | [] => Ok []
  | t1 :: rest =>
      ' (st', K') <- _step fuel s K st t1 ;;
      rows <- solve_loop fuel s K' st' rest ;;
      Ok (rk_y st' :: rows)
  end.

Definition solve (fuel : nat) (s : Session) : result (Tensor R) :=
  match se_ts s with
  | t0 :: ts1 :: _ =>
      let f0 := se_func s t0 (se_y0 s) in
      let h0 := ts1 - t0 in
      rows <- solve_loop fuel s (se_K s) (f0, t0, se_y0 s, h0)
                         (tl (se_ts s)) ;;
      reshape_infer (concat (se_y0 s :: rows)) (se_yshape s)
  | _ => Raise IndexError
  end.

(** [_rk_adaptive(fcn, ts, y0, params, cls, atol, rtol)] *)
Definition _rk_adaptive {P : Type} (fuel : nat)
           (fcn : R -> Tensor R -> P -> Tensor R) (ts : list R)
           (y0 : Tensor R) (params : P) (cls : SolverClass)
           (atol rtol : R) (uninit : nat -> nat -> R)
  : result (Tensor R) :=
  solver <- init cls atol rtol ;;
  s <- setup solver fcn ts y0 params uninit ;;
  solve fuel s.

Definition rk23_adaptive {P : Type} (fuel : nat) fcn ts y0 (params : P) :=
  _rk_adaptive fuel fcn ts y0 params RK23.
Definition rk45_adaptive {P : Type} (fuel : nat) fcn ts y0 (params : P) :=
  _rk_adaptive fuel fcn ts y0 params RK45.

End Stepper.

Arguments vec R : clear implicits.
Arguments rk_state R : clear implicits.
Arguments Solver R : clear implicits.
Arguments Session R : clear implicits.
Arguments Attempt R : clear implicits.
Arguments rk_step : simpl never.
Arguments attempt : simpl never.

(** ** An executable instance: exact rational arithmetic

    Sums, products and quotients are exact and kept in lowest terms.
    Roots are exact on perfect powers and rounded down otherwise; this is
    all the concrete runs below need, since in one dimension the
    Euclidean norm is an absolute value. *)

Module QInst.

Definition q_lit (q : Q) : Q := Qred q.
Definition q_add (a b : Q) : Q := Qred (a + b).
Definition q_sub (a b : Q) : Q := Qred (a - b).
Definition q_mul (a b : Q) : Q := Qred (a * b).
(** Division by zero is [0] here, as for [Qinv]; the floats of the
    source give [nan] or [inf].  The statements on rationals keep the
    divisor, the [scale] of an attempt, away from zero. *)
Definition q_div (a b : Q) : Q := Qred (a / b).
Definition q_neg (a : Q) : Q := Qred (- a).
Definition q_ltb (a b : Q) : bool :=
  (Qnum a * Zpos (Qden b) <? Qnum b * Zpos (Qden a))%Z.
Definition q_eqb (a b : Q) : bool := Qeq_bool a b.
Definition q_max (a b : Q) : Q := if q_ltb a b then b else a.

(** Integer [k]-th root, built bit by bit from the top. *)
Fixpoint iroot_bits (k : positive) (n : Z) (bits : nat) (r : Z) : Z :=
  match bits with
  | O => r
  | S b =>
      let c := (r + 2 ^ Z.of_nat b)%Z in
      iroot_bits k n b (if (c ^ Zpos k <=? n)%Z then c else r)
  end.

Definition iroot (k : positive) (n : Z) : Z :=
  iroot_bits k n (S (Z.to_nat (Z.log2 n))) 0.

Definition q_root (k : positive) (x : Q) : Q :=
  let r := Qred x in
  iroot k (Qnum r) # Z.to_pos (iroot k (Zpos (Qden r))).

Definition q_sqrt (x : Q) : Q := Qred (q_root 2 x).

(** [x ** e] for [e = p / k] in lowest terms: the [p]-th power of the
    [k]-th root. *)
Definition q_pow (x e : Q) : Q :=
  let e' := Qred e in
  Qred (Qpower (q_root (Qden e') x) (Qnum e')).

#[export] Instance QScalar : Scalar Q := {|
  lit := q_lit;
  s_add := q_add;
  s_sub := q_sub;
  s_mul := q_mul;
  s_div := q_div;
  s_neg := q_neg;
  s_pow := q_pow;
  s_sqrt := q_sqrt;
  s_max := q_max;
  s_ltb := q_ltb;
  s_eqb := q_eqb
|}.

End QInst.
Import QInst.

(** ** Vocabulary of the statements *)

Section Vocabulary.

Context {R : Type} `{Scalar R}.
Local Open Scope scalar_scope.

(** [a] does not exceed [b]. *)
Definition le (a b : R) : Prop := (b <? a) = false.

(** The laws of exact ordered arithmetic used when step sizes are
    compared. *)
Record OrderLaws : Prop := mkOrderLaws {
  lt_irrefl : forall a, (a <? a) = false;
  lt_asym : forall a b, (a <? b) = true -> (b <? a) = false;
  le_trans : forall a b c, le a b -> le b c -> le a c;
  lit_le : forall p q, (p <= q)%Q -> le (lit p) (lit q);
  mul_nonneg : forall a b, le zero a -> le zero b -> le zero (a * b);
  mul_le_self : forall a b, le zero a -> le b one -> le (a * b) a;
  pow_le_one :
    forall x e, (x <? one) = false -> (e <? zero) = true -> le (x ** e) one;
  sub_le_of_lt_add :
    forall t0 t1 h, (t1 <? t0 + h) = true -> le (t1 - t0) h;
  sub_nonneg : forall t0 t1, le t0 t1 -> le zero (t1 - t0)
}.

(** Every row of the buffer has [n] entries. *)
Definition rows_of_width (n : nat) (K : list (vec R)) : Prop :=
  Forall (fun r => length r = n) K.

(** The shapes [rk_step] relies on, for a state of [n] components: a
    tableau of [s >= 1] stages whose row [i] has at least [i] entries,
    [B] and [C] of length [s], and a buffer of [s + 1] rows of width
    [n].  On other shapes torch refuses the products or the row
    assignments; [setup] builds these shapes for the registered
    schemes. *)
Definition kernel_shapes (n : nat) (A : list (vec R)) (B C : vec R)
           (K : list (vec R)) : Prop :=
  (1 <= length A)%nat
  /\ length B = length A
  /\ length C = length A
  /\ (forall i, (i < length A)%nat -> (i <= length (nth i A []))%nat)
  /\ length K = S (length A)
  /\ rows_of_width n K.

(** The derivative of a state of [n] components has [n] components. *)
Definition keeps_width (n : nat) (func : R -> vec R -> vec R) : Prop :=
  forall t y, length y = n -> length (func t y) = n.

(** [fcn] returns a value shaped like the state it is given. *)
Definition shaped_like_state {P : Type}
           (fcn : R -> Tensor R -> P -> Tensor R)
           (params : P) (shape : list nat) : Prop :=
  forall t y,
    valid_tensor y -> tshape y = shape ->
    valid_tensor (fcn t y params) /\ tshape (fcn t y params) = shape.

Definition state_width (n : nat) (st : rk_state R) : Prop :=
  length (rk_f st) = n /\ length (rk_y st) = n.

(** The state [st'] left by an accepted attempt. *)
Definition state_of (a : Attempt R) : rk_state R :=
  (at_fnew a, at_tnew a, at_ynew a, at_h a).

(** The error norm of the sub-step of size [hstep] from [(t0, y0)] with
    derivative [f0], as the specification words it:
    [‖(K.T @ E) * hstep‖ / (atol + max(‖y0‖, ‖ynew‖) * rtol)]. *)
Definition spec_error_norm (s : Session R) (K : list (vec R)) (f0 : vec R)
           (t0 : R) (y0 : vec R) (hstep : R) : R :=
  let '(ynew, _, K') :=
    rk_step (se_func s) t0 y0 f0 hstep (se_A s, se_B s, se_C s, K) in
  norm (vmul_r (matmulT (length (se_y0 s)) K' (se_E s)) hstep)
  / (atol (se_self s) + s_max (norm y0) (norm ynew) * rtol (se_self s)).

(** The growth factor of an accepted, non-terminal sub-step as the
    specification words it, without and with the cap after a rejection. *)
Definition spec_growth (order : Z) (errnorm : R) : R :=
  if errnorm =? zero then lit 10%Q
  else py_min (lit 10%Q)
              (lit (9 # 10)%Q
               * errnorm ** (lit (-1)%Q / (lit (inject_Z order) + lit 1%Q))).

Definition spec_growth_capped (order : Z) (prev_rejected : bool)
           (errnorm : R) : R :=
  if prev_rejected then py_min one (spec_growth order errnorm)
  else spec_growth order errnorm.

(** The shrink factor of a rejected sub-step as the specification words
    it. *)
Definition spec_shrink (order : Z) (errnorm : R) : R :=
  py_max (lit (2 # 10)%Q)
         (lit (9 # 10)%Q
          * errnorm ** (lit (-1)%Q / (lit (inject_Z order) + lit 1%Q))).

(** The [while not accepted] loop entered at [(K, h, prev_rejected)]
    makes the rejected attempts [rej], in this order, and then the
    accepted attempt [acc]; every attempt starts from the same
    [(f0, t0, y0)]. *)
Inductive Search (s : Session R) (f0 : vec R) (t0 : R) (y0 : vec R) (t1 : R)
  : list (vec R) -> R -> bool -> list (Attempt R) -> Attempt R -> Prop :=
| Search_accept K h pr :
    at_accepted (attempt s K f0 t0 y0 h t1 pr) = true ->
    Search s f0 t0 y0 t1 K h pr [] (attempt s K f0 t0 y0 h t1 pr)
| Search_reject K h pr rej acc :
    at_accepted (attempt s K f0 t0 y0 h t1 pr) = false ->
    Search s f0 t0 y0 t1
           (at_K (attempt s K f0 t0 y0 h t1 pr))
           (at_h (attempt s K f0 t0 y0 h t1 pr)) true rej acc ->
    Search s f0 t0 y0 t1 K h pr
           (attempt s K f0 t0 y0 h t1 pr :: rej) acc.

(** [st'] is the state an accepted sub-step towards [t1] leaves when it
    starts in [st]: its error norm is below one. *)
Definition AcceptedSubstep (s : Session R) (t1 : R) (st st' : rk_state R)
  : Prop :=
  exists K h pr,
    let a := attempt s K (rk_f st) (rk_t st) (rk_y st) h t1 pr in
    (spec_error_norm s K (rk_f st) (rk_t st) (rk_y st) (at_hstep a) <? one)
      = true
    /\ at_accepted a = true
    /\ st' = state_of a.

(** One or more accepted sub-steps towards [t1]. *)
Inductive AcceptedPath (s : Session R) (t1 : R)
  : rk_state R -> rk_state R -> Prop :=
| path_one st st' :
    AcceptedSubstep s t1 st st' -> AcceptedPath s t1 st st'
| path_more st st1 st' :
    AcceptedSubstep s t1 st st1 -> AcceptedPath s t1 st1 st' ->
    AcceptedPath s t1 st st'.

(** The sub-steps [_step] makes towards [t1]: the states [mids] left by
    the sub-steps that were not terminal, then the terminal one, started
    in [last] with the buffer [Klast]. *)
Inductive Substeps (fuel : nat) (s : Session R) (t1 : R)
  : list (vec R) -> rk_state R -> list (rk_state R) ->
    list (vec R) -> rk_state R -> rk_state R -> list (vec R) -> Prop :=
| Substeps_last K st st' K' :
    _single_step fuel s K st t1 = Ok (st', true, K') ->
    Substeps fuel s t1 K st [] K st st' K'
| Substeps_more K st st1 K1 mids Klast last st' K' :
    _single_step fuel s K st t1 = Ok (st1, false, K1) ->
    Substeps fuel s t1 K1 st1 mids Klast last st' K' ->
    Substeps fuel s t1 K st (st1 :: mids) Klast last st' K'.

(** The states [solve] passes through: one [_step] per target. *)
Inductive Trajectory (fuel : nat) (s : Session R)
  : list (vec R) -> rk_state R -> list R -> list (rk_state R) -> Prop :=
| Trajectory_nil K st : Trajectory fuel s K st [] []
| Trajectory_cons K st t1 rest st' K' sts :
    _step fuel s K st t1 = Ok (st', K') ->
    Trajectory fuel s K' st' rest sts ->
    Trajectory fuel s K st (t1 :: rest) (st' :: sts).

(** ... in which every sub-step was an accepted one. *)
Inductive AcceptedTrajectory (s : Session R)
  : rk_state R -> list R -> list (rk_state R) -> Prop :=
| AcceptedTrajectory_nil st : AcceptedTrajectory s st [] []
| AcceptedTrajectory_cons st t1 rest st' sts :
    AcceptedPath s t1 st st' ->
    AcceptedTrajectory s st' rest sts ->
    AcceptedTrajectory s st (t1 :: rest) (st' :: sts).

(** The growth rule without the cap: an accepted, non-terminal attempt
    multiplies [h] by [spec_growth]. *)
Definition uncapped_growth_rule (s : Session R) (order : Z) : Prop :=
  forall K f0 t0 y0 h t1 pr,
    let a := attempt s K f0 t0 y0 h t1 pr in
    at_accepted a = true -> at_t1_achieved a = false ->
    at_h a = h * spec_growth order (at_errnorm a).

(** The termination rule that looks at where a sub-step lands: the
    sub-step [_single_step] returns is the last of its interval exactly
    when it ends on [t1]. *)
Definition lands_on_target_rule (fuel : nat) (s : Session R) : Prop :=
  forall K st t1 st' t1_achieved K',
    _single_step fuel s K st t1 = Ok (st', t1_achieved, K') ->
    (t1_achieved = true <-> rk_t st' = t1).

Fixpoint strictly_increasing (ts : list R) : bool :=
  match ts with
  | a :: (b :: _) as rest => (a <? b) && strictly_increasing rest
  | _ => true
  end.

Fixpoint strictly_decreasing (ts : list R) : bool :=
  match ts with
  | a :: (b :: _) as rest => (b <? a) && strictly_decreasing rest
  | _ => true
  end.

End Vocabulary.

(** ** Concrete runs

    Scalar problems for the rational instance.  The tolerances are those
    of the doctests unless a run says otherwise. *)

Module Examples.

Definition scalar_state (x : Q) : Tensor Q := mkTensor [1%nat] [x].

(** A state with no element: [torch.zeros((0,))]. *)
Definition empty_state : Tensor Q := mkTensor [0%nat] [].

(** Fresh memory that happens to hold zeros. *)
Definition blank (i j : nat) : Q := 0%Q.

(** [fcn(t, y) = -y] *)
Definition fcn_decay (t : Q) (y : Tensor Q) (_ : unit) : Tensor Q :=
  mkTensor (tshape y) (map q_neg (tdata y)).

(** [fcn(t, y) = 0 * y] *)
Definition fcn_still (t : Q) (y : Tensor Q) (_ : unit) : Tensor Q :=
  mkTensor (tshape y) (map (fun _ => 0%Q) (tdata y)).

(** [fcn(t, y) = 8 * torch.ones_like(y) if t >= 1 else 0 * y] *)
Definition fcn_kick (t : Q) (y : Tensor Q) (_ : unit) : Tensor Q :=
  mkTensor (tshape y)
           (map (fun _ => if q_ltb t 1 then 0%Q else 8%Q) (tdata y)).

Definition doc_atol : Q := (1 # 100000000)%Q.
Definition doc_rtol : Q := (1 # 100000)%Q.

(** [RK23(atol, rtol)] *)
Definition solver23 (a r : Q) : Solver Q :=
  mkSolver RK23 a r 10%Q (1 # 5)%Q (9 # 10)%Q (-1 # 3)%Q.

(** The tableau of [RK23] as [setup] stores it, and a buffer for one
    component. *)
Definition A23 : list (list Q) :=
  [[0; 0; 0]; [1 # 2; 0; 0]; [0; 3 # 4; 0]]%Q.
Definition B23 : list Q := [2 # 9; 1 # 3; 4 # 9]%Q.
Definition C23 : list Q := [0; 1 # 2; 3 # 4]%Q.
Definition K_one : list (list Q) := repeat [0%Q] 4.

(** [func(t, y) = -y] on flat states. *)
Definition decay (t : Q) (y : list Q) : list Q := map q_neg y.

Definition grid_up : list Q := [0; 1 # 10; 2 # 10]%Q.
Definition grid_down : list Q := [0; -1 # 10; -2 # 10]%Q.
Definition grid_unit : list Q := [0; 1]%Q.
Definition grid_zigzag : list Q := [0; 1; 1 # 2]%Q.

End Examples.

(** ** Vocabulary of the further properties *)

Section MoreVocabulary.

Context {R : Type} `{Scalar R}.
Local Open Scope scalar_scope.

(** Two sessions that differ at most in the time grid and in the
    content of the stage buffer. *)
Definition same_kernel (s s' : Session R) : Prop :=
  se_self s = se_self s'
  /\ se_yshape s = se_yshape s'
  /\ se_y0 s = se_y0 s'
  /\ se_func s = se_func s'
  /\ se_A s = se_A s' /\ se_B s = se_B s'
  /\ se_C s = se_C s' /\ se_E s = se_E s'.

(** The time-reversed problem: [reversed(t, y, *params) =
    -fcn(-t, y, *params)]. *)
Definition reversed {P : Type} (fcn : R -> Tensor R -> P -> Tensor R)
  : R -> Tensor R -> P -> Tensor R :=
  fun t y params =>
    mkTensor (tshape (fcn (- t) y params))
             (vneg (tdata (fcn (- t) y params))).

(** A derivative that does not depend on the time or the state. *)
Definition constant_fcn {P : Type} (c : Tensor R)
  : R -> Tensor R -> P -> Tensor R :=
  fun _ _ _ => c.

End MoreVocabulary.

(** The consistency conditions of an embedded Runge-Kutta pair: the
    weights sum to one, the error coefficients to zero, and every row of
    [A] to its node. *)
Definition qsum (v : list Q) : Q := fold_right Qplus 0%Q v.

Definition tableau_consistent (c : SolverClass) : bool :=
  match cls_A c, cls_B c, cls_C c, cls_E c with
  | Some A, Some B, Some C, Some E =>
      Qeq_bool (qsum B) 1%Q
      && Qeq_bool (qsum E) 0%Q
      && forallb (fun rc => Qeq_bool (qsum (fst rc)) (snd rc)) (combine A C)
  | _, _, _, _ => false
  end.

Module MoreExamples.

(** A grid whose first two points coincide. *)
Definition grid_flat : list Q := [0; 0; 1]%Q.

Definition grid_up_more : list Q := [0; 1 # 10; 2 # 10; 3 # 10]%Q.

(** Fresh memory with a different content in every cell. *)
Definition noise (i j : nat) : Q :=
  (Z.of_nat (3 * i + j + 1) # 7)%Q.

End MoreExamples.

(** * Properties *)

Unset Implicit Arguments.

(** ** Lists and the stage buffer *)

Section BufferFacts.

Context {R : Type} `{Scalar R}.
Local Open Scope scalar_scope.

Lemma set_row_length (K : list (vec R)) i v :
  length (set_row K i v) = length K.
Proof.
  revert i; induction K as [|r K IH]; intros [|i]; simpl; auto.
Qed.

Lemma set_row_same (K : list (vec R)) i v :
  (i < length K)%nat -> nth_error (set_row K i v) i = Some v.
Proof.
  revert i; induction K as [|r K IH]; intros [|i] Hi; simpl in *;
    try lia; auto.
  apply IH; lia.
Qed.

Lemma set_row_other (K : list (vec R)) i j v :
  i <> j -> nth_error (set_row K i v) j = nth_error K j.
Proof.
  revert i j; induction K as [|r K IH]; intros [|i] [|j] Hij; simpl;
    auto; try congruence.
Qed.

Lemma set_row_firstn (K : list (vec R)) i j v :
  (j <= i)%nat -> firstn j (set_row K i v) = firstn j K.
Proof.
  revert i j; induction K as [|r K IH]; intros [|i] [|j] Hij; simpl;
    auto; try lia.
  f_equal; apply IH; lia.
Qed.

Lemma set_row_skipn (K : list (vec R)) i j v :
  (i < j)%nat -> skipn j (set_row K i v) = skipn j K.
Proof.
  revert i j; induction K as [|r K IH]; intros [|i] [|j] Hij; simpl;
    auto; try lia.
  apply IH; lia.
Qed.

Lemma set_row_width n (K : list (vec R)) i v :
  rows_of_width n K -> length v = n -> rows_of_width n (set_row K i v).
Proof.
  unfold rows_of_width; intros HK Hv; revert i.
  induction HK as [|r K Hr HK IH]; intros [|i]; simpl; constructor; auto.
Qed.

Lemma firstn_agree_nth (K K' : list (vec R)) n j :
  firstn n K' = firstn n K -> (j < n)%nat ->
  nth_error K' j = nth_error K j.
Proof.
  intros E Hj.
  assert (Hb : (j <? n)%nat = true) by (apply Nat.ltb_lt; exact Hj).
  pose proof (nth_error_firstn n K' j) as H1.
  pose proof (nth_error_firstn n K j) as H2.
  rewrite Hb in H1, H2. rewrite <- H1, <- H2, E. reflexivity.
Qed.

Lemma firstn_shrink (K K' : list (vec R)) n m :
  firstn n K' = firstn n K -> (m <= n)%nat -> firstn m K' = firstn m K.
Proof.
  intros E Hm.
  replace m with (Nat.min m n) by lia.
  rewrite <- !firstn_firstn, E. reflexivity.
Qed.

Lemma removelast_set_last (K : list (vec R)) v :
  removelast (set_row K (length K - 1) v) = removelast K.
Proof.
  rewrite !removelast_firstn_len, set_row_length.
  apply set_row_firstn. lia.
Qed.

Lemma vadd_length (u v : vec R) :
  length (vadd u v) = Nat.min (length u) (length v).
Proof.
  revert v; induction u as [|x u IH]; intros [|y v]; simpl; auto.
Qed.

Lemma vmul_r_length (v : vec R) h : length (vmul_r v h) = length v.
Proof. apply length_map. Qed.

Lemma vmul_l_length (v : vec R) h : length (vmul_l h v) = length v.
Proof. apply length_map. Qed.

Lemma vneg_length (v : vec R) : length (vneg v) = length v.
Proof. apply length_map. Qed.

Lemma matmulT_length n (rows : list (vec R)) coef :
  rows_of_width n rows -> length (matmulT n rows coef) = n.
Proof.
  unfold matmulT, rows_of_width. intros Hrows.
  assert (Hacc : length (repeat zero n) = n) by apply repeat_length.
  revert Hacc. generalize (repeat zero n) as acc. revert coef.
  induction Hrows as [|r rows Hr Hrows IH]; intros coef acc Hacc;
    simpl; auto.
  destruct coef as [|a coef]; simpl; auto.
  apply IH. rewrite vadd_length, vmul_r_length. lia.
Qed.

Lemma rows_of_width_firstn n (K : list (vec R)) m :
  rows_of_width n K -> rows_of_width n (firstn m K).
Proof.
  unfold rows_of_width. intros HK. revert m.
  induction HK as [|r K Hr HK IH]; intros [|m]; simpl; constructor; auto.
Qed.

Lemma rows_of_width_removelast n (K : list (vec R)) :
  rows_of_width n K -> rows_of_width n (removelast K).
Proof.
  rewrite removelast_firstn_len. apply rows_of_width_firstn.
Qed.

Lemma vmul_comm (v : vec R) h :
  (forall a b : R, a * b = b * a) -> vmul_r v h = vmul_l h v.
Proof.
  intros Hc. unfold vmul_r, vmul_l. apply map_ext. intros; apply Hc.
Qed.

End BufferFacts.

(** ** The single-step kernel *)

Section KernelFacts.

Context {R : Type} `{Scalar R}.
Local Open Scope scalar_scope.

Variable func : R -> vec R -> vec R.
Variables (t : R) (y : vec R) (h : R).

(** The stage loop writes the rows [s .. s + length ac - 1], each from
    the rows before it, and leaves the others alone. *)
Lemma rk_stages_spec (ac : list (vec R * R)) :
  forall s K,
    (s + length ac <= length K)%nat ->
    let K' := rk_stages func t y h ac s K in
    length K' = length K
    /\ firstn s K' = firstn s K
    /\ skipn (s + length ac) K' = skipn (s + length ac) K
    /\ forall j a c,
        nth_error ac j = Some (a, c) ->
        nth_error K' (s + j)
        = Some (func (t + c * h)
                  (vadd y (vmul_r (matmulT (length y) (firstn (s + j) K')
                                           (firstn (s + j) a)) h))).
Proof.
  induction ac as [|[a c] rest IH]; intros s K Hlen; simpl in *.
  - repeat split; auto. intros [|j] a c Hj; discriminate.
  - set (v := func (t + c * h)
                (vadd y (vmul_r (matmulT (length y) (firstn s K)
                                         (firstn s a)) h))).
    destruct (IH (S s) (set_row K s v)) as (L & P & Sk & St).
    { rewrite set_row_length. lia. }
    assert (Ps : firstn s (rk_stages func t y h rest (S s) (set_row K s v))
                 = firstn s K).
    { rewrite (firstn_shrink _ _ _ s P) by lia. apply set_row_firstn. lia. }
    repeat split.
    + rewrite L. apply set_row_length.
    + exact Ps.
    + replace (s + S (length rest))%nat with (S s + length rest)%nat by lia.
      rewrite Sk. apply set_row_skipn. lia.
    + intros [|j] a' c' Hj; simpl in Hj.
      * inversion Hj; subst a' c'. rewrite Nat.add_0_r.
        rewrite (firstn_agree_nth _ _ _ s P) by lia.
        rewrite set_row_same by lia. rewrite Ps. reflexivity.
      * replace (s + S j)%nat with (S s + j)%nat by lia.
        apply St. exact Hj.
Qed.

Lemma rk_stages_width n (ac : list (vec R * R)) :
  keeps_width n func -> length y = n ->
  forall s K, rows_of_width n K ->
              rows_of_width n (rk_stages func t y h ac s K).
Proof.
  intros Hf Hy. induction ac as [|[a c] rest IH]; intros s K HK; simpl.
  - exact HK.
  - apply IH. apply set_row_width; auto.
    apply Hf. rewrite vadd_length, vmul_r_length, matmulT_length.
    + lia.
    + rewrite Hy. apply rows_of_width_firstn. exact HK.
Qed.

Lemma rk_step_width n f A B C K :
  keeps_width n func -> length y = n -> length f = n ->
  rows_of_width n K ->
  let r := rk_step func t y f h (A, B, C, K) in
  length (fst (fst r)) = n /\ length (snd (fst r)) = n
  /\ rows_of_width n (snd r).
Proof.
  intros Hf Hy Hl HK. unfold rk_step. cbv zeta. simpl fst. simpl snd.
  set (K2 := rk_stages func t y h (combine (tl A) (tl C)) 1 (set_row K 0 f)).
  assert (Hw : rows_of_width n K2).
  { apply rk_stages_width; auto. apply set_row_width; auto. }
  assert (Hyn : length (vadd y (vmul_l h (matmulT (length y)
                                            (removelast K2) B))) = n).
  { rewrite vadd_length, vmul_l_length, matmulT_length.
    - lia.
    - rewrite Hy. apply rows_of_width_removelast. exact Hw. }
  split; [exact Hyn|]. split.
  - apply Hf. exact Hyn.
  - apply set_row_width; [exact Hw|]. apply Hf. exact Hyn.
Qed.

Lemma nth_error_combine_tl (A : list (vec R)) (C : vec R) i :
  (1 <= i)%nat -> (i < length A)%nat -> length C = length A ->
  nth_error (combine (tl A) (tl C)) (i - 1)
  = Some (nth i A [], nth i C zero).
Proof.
  intros H1 Hi HC.
  destruct A as [|a0 A]; [simpl in Hi; lia|].
  destruct C as [|c0 C]; [discriminate|].
  destruct i as [|i]; [lia|]. simpl in *.
  rewrite Nat.sub_0_r.
  assert (Hi' : (i < length A)%nat) by lia.
  assert (HC' : length C = length A) by lia.
  clear H1 Hi HC a0 c0. revert i C Hi' HC'.
  induction A as [|a A IH]; intros i C Hi HC; simpl in *; [lia|].
  destruct C as [|c C]; [discriminate|].
  destruct i as [|i]; simpl; auto. apply IH; simpl in *; lia.
Qed.

End KernelFacts.

Section KernelTheorem.

Context {R : Type} `{Scalar R}.
Local Open Scope scalar_scope.

(** C3.  On inputs of fitting shapes ([kernel_shapes]: a tableau of
    [s >= 1] stages, a buffer of [s + 1] rows), [rk_step] leaves [f] in
    row 0, in each row [i] of [1 .. s-1] the derivative at time
    [t + C[i]*h] of the state [y + h * (K[:i].T @ A[i][:i])], and in row
    [s] the derivative at the new state; it returns
    [ynew = y + h * (K[:-1].T @ B)] and [fnew = func(t + h, ynew)].
    Every row is given by one equation: the kernel is a function of its
    arguments and evaluates each stage once.  Multiplication commutes,
    as it does in floating point. *)
Theorem rk_step_fills_stage_buffer
        (func : R -> vec R -> vec R) (t : R) (y f : vec R) (h : R)
        (A : list (vec R)) (B C : vec R) (K : list (vec R)) :
  (forall a b : R, a * b = b * a) ->
  kernel_shapes (length y) A B C K ->
  keeps_width (length y) func ->
  length f = length y ->
  let s := length A in
  let ynew := fst (fst (rk_step func t y f h (A, B, C, K))) in
  let fnew := snd (fst (rk_step func t y f h (A, B, C, K))) in
  let K' := snd (rk_step func t y f h (A, B, C, K)) in
  length K' = S s
  /\ nth_error K' 0 = Some f
  /\ (forall i, (1 <= i < s)%nat ->
        nth_error K' i
        = Some (func (t + nth i C zero * h)
                  (vadd y (vmul_l h (matmulT (length y) (firstn i K')
                                             (firstn i (nth i A [])))))))
  /\ nth_error K' s = Some fnew
  /\ ynew = vadd y (vmul_l h (matmulT (length y) (removelast K') B))
  /\ fnew = func (t + h) ynew.
Proof.
  intros Hcomm (HA & _ & HC & _ & HK & _) _ _ s ynew fnew K'.
  unfold rk_step in ynew, fnew, K'. simpl in ynew, fnew, K'.
  set (K0 := set_row K 0 f) in *.
  set (K2 := rk_stages func t y h (combine (tl A) (tl C)) 1 K0) in *.
  assert (Hac : length (combine (tl A) (tl C)) = (s - 1)%nat).
  { rewrite length_combine. subst s.
    destruct A as [|a0 A]; [simpl in HA; lia|].
    destruct C as [|c0 C]; [discriminate|]. simpl in *. lia. }
  assert (HK0 : length K0 = S s) by (unfold K0; rewrite set_row_length; auto).
  destruct (rk_stages_spec func t y h (combine (tl A) (tl C)) 1 K0)
    as (L & P & _ & St).
  { rewrite Hac, HK0. lia. }
  fold K2 in L, P, St.
  assert (HK2 : length K2 = S s) by congruence.
  assert (Hlast : (length K2 - 1)%nat = s) by lia.
  assert (Hpre : forall i, (i <= s)%nat -> firstn i K' = firstn i K2).
  { intros i Hi. unfold K'. apply set_row_firstn. lia. }
  repeat split.
  - unfold K'. rewrite set_row_length. exact HK2.
  - unfold K'. rewrite set_row_other by lia.
    rewrite (firstn_agree_nth _ _ _ 0%nat P) by lia.
    unfold K0. apply set_row_same. lia.
  - intros i Hi. unfold K'. rewrite set_row_other by lia.
    fold K'. rewrite Hpre by lia.
    pose proof (nth_error_combine_tl A C i) as Hnth.
    specialize (St (i - 1)%nat _ _ (Hnth ltac:(lia) ltac:(subst s; lia) HC)).
    replace (1 + (i - 1))%nat with i in St by lia.
    rewrite St. rewrite vmul_comm by exact Hcomm. reflexivity.
  - unfold K'. rewrite Hlast. apply set_row_same. lia.
  - unfold ynew, K'. rewrite removelast_set_last. reflexivity.
Qed.

End KernelTheorem.

(** ** The tableau registry *)

Lemma RK23_tableau_consistent : tableau_check RK23 = true.
Proof. reflexivity. Qed.

Lemma RK45_tableau_rows : tableau_check_with 5 RK45 = true.
Proof. reflexivity. Qed.

(** C1.  [RK23] passes the shape check of the specification.  [RK45]
    does not: its [A] is written with six rows of five entries, so its
    shape is [(6, 5)] and not [(s, s) = (6, 6)]; every other part of the
    check (strictly lower-triangular entries, lengths of [B], [C] and
    [E], [C[0] == 0]) holds for it. *)
Theorem RK45_A_is_six_by_five :
  tableau_check RK23 = true
  /\ tableau_check RK45 = false
  /\ option_map shape2 (cls_A RK45) = Some (6, 5)%nat
  /\ cls_n_stages RK45 = Some 6%nat
  /\ tableau_check_with 5 RK45 = true.
Proof. repeat split. Qed.

(** ** Construction *)

Section Construction.

Context {R : Type} `{Scalar R}.
Local Open Scope scalar_scope.

Lemma init_type_error_iff (cls : SolverClass) (atol rtol : R) :
  init cls atol rtol = Raise TypeError
  <-> cls_error_estimator_order cls = None.
Proof.
  unfold init. destruct (cls_error_estimator_order cls) as [o|]; simpl.
  - split; [|discriminate].
    destruct (_ =? _); discriminate.
  - split; reflexivity.
Qed.

(** A class with estimator order [o] is constructed, with the fields
    [__init__] assigns, as soon as [o + 1.] is not zero. *)
Lemma init_ok (cls : SolverClass) (o : Z) (a r : R) :
  cls_error_estimator_order cls = Some o ->
  (lit (inject_Z o) + lit 1%Q =? zero) = false ->
  init cls a r
  = Ok (mkSolver cls a r (lit 10%Q) (lit (2 # 10)%Q) (lit (9 # 10)%Q)
          (lit (-1)%Q / (lit (inject_Z o) + lit 1%Q))).
Proof.
  intros Ho Hd. unfold init. rewrite Ho. cbn [attr bind].
  rewrite Hd. reflexivity.
Qed.

(** C10.  Constructing the base class raises for every [atol] and
    [rtol]: its [error_estimator_order] is [None] and [None + 1.] is a
    [TypeError].  A class raises this error exactly when it has no
    estimator order, and a class with an estimator order [o] is
    constructed whenever [o + 1.] is not zero.  [RK23] and [RK45] set
    the orders [2] and [4]: both are constructed, in whatever arithmetic
    tells [3] and [5] from zero and in particular on the rationals, with
    the error exponents [-1/3] and [-1/5]. *)
Theorem base_class_cannot_be_constructed (atol rtol : R) :
  init RKAdaptiveStepSolver atol rtol = Raise TypeError
  /\ (forall cls, init cls atol rtol = Raise TypeError
                  <-> cls_error_estimator_order cls = None)
  /\ cls_error_estimator_order RK23 = Some 2%Z
  /\ cls_error_estimator_order RK45 = Some 4%Z
  /\ init RK23 atol rtol <> Raise TypeError
  /\ init RK45 atol rtol <> Raise TypeError
  /\ (forall cls o,
        cls_error_estimator_order cls = Some o ->
        (lit (inject_Z o) + lit 1%Q =? zero) = false ->
        init cls atol rtol
        = Ok (mkSolver cls atol rtol
                (lit 10%Q) (lit (2 # 10)%Q) (lit (9 # 10)%Q)
                (lit (-1)%Q / (lit (inject_Z o) + lit 1%Q))))
  /\ (forall a r : Q,
        init RK23 a r
        = Ok (mkSolver RK23 a r 10%Q (1 # 5)%Q (9 # 10)%Q (-1 # 3)%Q))
  /\ (forall a r : Q,
        init RK45 a r
        = Ok (mkSolver RK45 a r 10%Q (1 # 5)%Q (9 # 10)%Q (-1 # 5)%Q)).
Proof.
  split; [reflexivity|].
  split; [intros cls; apply init_type_error_iff|].
  split; [reflexivity|]. split; [reflexivity|].
  split; [intros E; apply init_type_error_iff in E; discriminate|].
  split; [intros E; apply init_type_error_iff in E; discriminate|].
  split; [intros cls o Ho Hd; apply init_ok; assumption|].
  split; intros a r; reflexivity.
Qed.

(** What [__init__] stores, for a class with estimator order [o]. *)
Lemma init_ok_fields (cls : SolverClass) (a r : R) (self : Solver R) :
  init cls a r = Ok self ->
  exists o,
    cls_error_estimator_order cls = Some o
    /\ solver_cls self = cls
    /\ atol self = a /\ rtol self = r
    /\ max_factor self = lit 10%Q
    /\ min_factor self = lit (2 # 10)%Q
    /\ step_mult self = lit (9 # 10)%Q
    /\ error_exponent self = lit (-1)%Q / (lit (inject_Z o) + lit 1%Q).
Proof.
  unfold init. destruct (cls_error_estimator_order cls) as [o|]; simpl;
    [|discriminate].
  destruct (_ =? _); [discriminate|].
  intros E; inversion E; subst; simpl. exists o. repeat split.
Qed.

End Construction.

(** ** The step-size search *)

Section SearchFacts.

Context {R : Type} `{Scalar R}.
Local Open Scope scalar_scope.

Variable s : Session R.

Ltac open_attempt :=
  unfold attempt, spec_error_norm, _error_norm;
  match goal with
  | |- context [rk_step ?f ?t ?y ?g ?h ?abck] =>
      destruct (rk_step f t y g h abck) as [[? ?] ?]
  end; simpl.

Lemma attempt_t1_achieved K f0 t0 y0 h t1 pr :
  at_t1_achieved (attempt s K f0 t0 y0 h t1 pr) = (t1 <? t0 + h).
Proof. open_attempt. reflexivity. Qed.

Lemma attempt_hstep K f0 t0 y0 h t1 pr :
  at_hstep (attempt s K f0 t0 y0 h t1 pr)
  = if t1 <? t0 + h then t1 - t0 else h.
Proof. open_attempt. reflexivity. Qed.

Lemma attempt_tnew K f0 t0 y0 h t1 pr :
  at_tnew (attempt s K f0 t0 y0 h t1 pr)
  = t0 + at_hstep (attempt s K f0 t0 y0 h t1 pr).
Proof. open_attempt. reflexivity. Qed.

Lemma attempt_rk_step K f0 t0 y0 h t1 pr :
  let a := attempt s K f0 t0 y0 h t1 pr in
  rk_step (se_func s) t0 y0 f0 (at_hstep a) (se_A s, se_B s, se_C s, K)
  = (at_ynew a, at_fnew a, at_K a).
Proof. cbv zeta. rewrite attempt_hstep. open_attempt. reflexivity. Qed.

Lemma attempt_errnorm K f0 t0 y0 h t1 pr :
  let a := attempt s K f0 t0 y0 h t1 pr in
  at_errnorm a = spec_error_norm s K f0 t0 y0 (at_hstep a).
Proof.
  cbv zeta. rewrite attempt_hstep. open_attempt. reflexivity.
Qed.

Lemma attempt_accepted K f0 t0 y0 h t1 pr :
  let a := attempt s K f0 t0 y0 h t1 pr in
  at_accepted a = (at_errnorm a <? one).
Proof. cbv zeta. open_attempt. reflexivity. Qed.

(** The new step size, in the three cases of the source. *)
Lemma attempt_h K f0 t0 y0 h t1 pr :
  let a := attempt s K f0 t0 y0 h t1 pr in
  let self := se_self s in
  at_h a =
  if at_accepted a && negb (at_t1_achieved a) then
    let factor :=
      if at_errnorm a =? zero then max_factor self
      else py_min (max_factor self)
                  (step_mult self * at_errnorm a ** error_exponent self) in
    h * (if pr then py_min one factor else factor)
  else if negb (at_accepted a) then
    at_hstep a * py_max (min_factor self)
                   (step_mult self * at_errnorm a ** error_exponent self)
  else h.
Proof. cbv zeta. open_attempt. reflexivity. Qed.

Lemma single_step_loop_S fuel K f0 t0 y0 h t1 pr :
  _single_step_loop (S fuel) s K f0 t0 y0 h t1 pr
  = if at_accepted (attempt s K f0 t0 y0 h t1 pr)
    then Ok (state_of (attempt s K f0 t0 y0 h t1 pr),
             at_t1_achieved (attempt s K f0 t0 y0 h t1 pr),
             at_K (attempt s K f0 t0 y0 h t1 pr))
    else _single_step_loop fuel s (at_K (attempt s K f0 t0 y0 h t1 pr))
           f0 t0 y0 (at_h (attempt s K f0 t0 y0 h t1 pr)) t1
           (negb (at_accepted (attempt s K f0 t0 y0 h t1 pr))).
Proof. reflexivity. Qed.

(** The loop returns exactly when some attempt is accepted, after
    retrying every rejected one. *)
Lemma single_step_loop_ok fuel :
  forall K f0 t0 y0 h t1 pr r,
    _single_step_loop fuel s K f0 t0 y0 h t1 pr = Ok r ->
    exists rej acc,
      Search s f0 t0 y0 t1 K h pr rej acc
      /\ (length rej < fuel)%nat
      /\ r = (state_of acc, at_t1_achieved acc, at_K acc).
Proof.
  induction fuel as [|fuel IH]; intros K f0 t0 y0 h t1 pr r E;
    [discriminate|].
  rewrite single_step_loop_S in E.
  destruct (at_accepted (attempt s K f0 t0 y0 h t1 pr)) eqn:Ha.
  - injection E as <-. exists [], (attempt s K f0 t0 y0 h t1 pr).
    repeat split; [constructor; exact Ha | simpl; lia].
  - simpl negb in E. apply IH in E. destruct E as (rej & acc & S1 & L & ->).
    exists (attempt s K f0 t0 y0 h t1 pr :: rej), acc.
    repeat split; [constructor; assumption | simpl; lia].
Qed.

Lemma single_step_loop_complete f0 t0 y0 t1 K h pr rej acc :
  Search s f0 t0 y0 t1 K h pr rej acc ->
  forall fuel, (length rej < fuel)%nat ->
    _single_step_loop fuel s K f0 t0 y0 h t1 pr
    = Ok (state_of acc, at_t1_achieved acc, at_K acc).
Proof.
  induction 1 as [K h pr Ha | K h pr rej acc Ha _ IH]; intros fuel L;
    (destruct fuel as [|fuel]; [simpl in L; lia|]);
    rewrite single_step_loop_S, Ha.
  - reflexivity.
  - simpl negb. apply IH. simpl in L. lia.
Qed.

Lemma single_step_loop_no_raise fuel :
  forall K f0 t0 y0 h t1 pr e,
    _single_step_loop fuel s K f0 t0 y0 h t1 pr <> Raise e.
Proof.
  induction fuel as [|fuel IH]; intros K f0 t0 y0 h t1 pr e;
    [discriminate|].
  rewrite single_step_loop_S.
  destruct (at_accepted _); [discriminate|apply IH].
Qed.

(** Facts about the attempts of a search. *)
Lemma Search_rejected f0 t0 y0 t1 K h pr rej acc :
  Search s f0 t0 y0 t1 K h pr rej acc ->
  Forall (fun a => at_accepted a = false) rej /\ at_accepted acc = true.
Proof.
  induction 1 as [K h pr Ha | K h pr rej acc Ha _ [IH1 IH2]]; split; auto.
Qed.

End SearchFacts.

(** ** Sub-steps, intervals and the trajectory *)

Section StepFacts.

Context {R : Type} `{Scalar R}.
Local Open Scope scalar_scope.

Variable s : Session R.

Lemma Search_accepted_attempt f0 t0 y0 t1 K h pr rej acc :
  Search s f0 t0 y0 t1 K h pr rej acc ->
  exists K' h' pr',
    acc = attempt s K' f0 t0 y0 h' t1 pr'
    /\ at_accepted acc = true
    /\ (pr' = true <-> (pr = true \/ rej <> [])).
Proof.
  induction 1 as [K h pr Ha | K h pr rej acc Ha _ IH].
  - exists K, h, pr. split; [reflexivity|]. split; [exact Ha|]. split.
    + intros E; left; exact E.
    + intros [E|E]; congruence.
  - destruct IH as (K' & h' & pr' & E & Hacc & Hpr).
    exists K', h', pr'. split; [exact E|]. split; [exact Hacc|]. split.
    + intros _. right. discriminate.
    + intros _. apply Hpr. left; reflexivity.
Qed.

Lemma single_step_unfold fuel K st t1 :
  _single_step fuel s K st t1
  = _single_step_loop fuel s K (rk_f st) (rk_t st) (rk_y st) (rk_h st)
                      t1 false.
Proof. destruct st as [[[f0 t0] y0] h]. reflexivity. Qed.

Lemma single_step_search fuel K st t1 st' ach K' :
  _single_step fuel s K st t1 = Ok (st', ach, K') ->
  exists rej acc,
    Search s (rk_f st) (rk_t st) (rk_y st) t1 K (rk_h st) false rej acc
    /\ (length rej < fuel)%nat
    /\ st' = state_of acc /\ ach = at_t1_achieved acc /\ K' = at_K acc.
Proof.
  rewrite single_step_unfold. intros E.
  apply single_step_loop_ok in E. destruct E as (rej & acc & S1 & L & E).
  injection E as -> -> ->. exists rej, acc. repeat split; auto.
Qed.

Lemma single_step_accepted fuel K st t1 st' ach K' :
  _single_step fuel s K st t1 = Ok (st', ach, K') ->
  AcceptedSubstep s t1 st st'.
Proof.
  intros E. apply single_step_search in E.
  destruct E as (rej & acc & S1 & _ & -> & _ & _).
  apply Search_accepted_attempt in S1.
  destruct S1 as (K1 & h1 & pr1 & -> & Hacc & _).
  exists K1, h1, pr1. cbv zeta. split; [|split; [exact Hacc|reflexivity]].
  rewrite <- attempt_errnorm, <- attempt_accepted. exact Hacc.
Qed.

Lemma step_loop_S n fuel K st t1 :
  _step_loop (S n) fuel s K st t1
  = match _single_step fuel s K st t1 with
    | Ok (st', true, K') => Ok (st', K')
    | Ok (st', false, K') => _step_loop n fuel s K' st' t1
    | Raise e => Raise e
    | Timeout => Timeout
    end.
Proof.
  simpl. destruct (_single_step fuel s K st t1) as [[[st' [|]] K']| |];
    reflexivity.
Qed.

Lemma step_loop_substeps n fuel :
  forall K st t1 st' K',
    _step_loop n fuel s K st t1 = Ok (st', K') ->
    exists mids Klast last,
      Substeps fuel s t1 K st mids Klast last st' K'
      /\ (length mids < n)%nat.
Proof.
  induction n as [|n IH]; intros K st t1 st' K' E; [discriminate|].
  rewrite step_loop_S in E.
  destruct (_single_step fuel s K st t1) as [[[st1 [|]] K1]| |] eqn:E1;
    try discriminate.
  - injection E as -> ->. exists [], K, st. split.
    + constructor. exact E1.
    + simpl; lia.
  - apply IH in E. destruct E as (mids & Klast & last & Sb & L).
    exists (st1 :: mids), Klast, last. split.
    + econstructor; eassumption.
    + simpl; lia.
Qed.

Lemma substeps_step_loop fuel t1 K st mids Klast last st' K' :
  Substeps fuel s t1 K st mids Klast last st' K' ->
  forall n, (length mids < n)%nat ->
            _step_loop n fuel s K st t1 = Ok (st', K').
Proof.
  induction 1 as [K st st' K' E | K st st1 K1 mids Klast last st' K' E _ IH];
    intros n L; (destruct n as [|n]; [simpl in L; lia|]);
    rewrite step_loop_S, E.
  - reflexivity.
  - apply IH. simpl in L. lia.
Qed.

Lemma substeps_terminal fuel t1 K st mids Klast last st' K' :
  Substeps fuel s t1 K st mids Klast last st' K' ->
  _single_step fuel s Klast last t1 = Ok (st', true, K').
Proof. induction 1; auto. Qed.

Lemma substeps_path fuel t1 K st mids Klast last st' K' :
  Substeps fuel s t1 K st mids Klast last st' K' ->
  AcceptedPath s t1 st st'.
Proof.
  induction 1 as [K st st' K' E | K st st1 K1 mids Klast last st' K' E _ IH].
  - apply path_one. eapply single_step_accepted; eassumption.
  - eapply path_more; [eapply single_step_accepted; eassumption | exact IH].
Qed.

Lemma step_path fuel K st t1 st' K' :
  _step fuel s K st t1 = Ok (st', K') -> AcceptedPath s t1 st st'.
Proof.
  unfold _step. intros E. apply step_loop_substeps in E.
  destruct E as (mids & Klast & last & Sb & _).
  eapply substeps_path; eassumption.
Qed.

Lemma solve_loop_cons fuel K st t1 rest :
  solve_loop fuel s K st (t1 :: rest)
  = match _step fuel s K st t1 with
    | Ok (st', K') =>
        match solve_loop fuel s K' st' rest with
        | Ok rows => Ok (rk_y st' :: rows)
        | Raise e => Raise e
        | Timeout => Timeout
        end
    | Raise e => Raise e
    | Timeout => Timeout
    end.
Proof.
  simpl. destruct (_step fuel s K st t1) as [[st' K']| |]; reflexivity.
Qed.

Lemma solve_loop_trajectory fuel :
  forall targets K st rows,
    solve_loop fuel s K st targets = Ok rows ->
    exists sts,
      Trajectory fuel s K st targets sts /\ rows = map rk_y sts.
Proof.
  induction targets as [|t1 rest IH]; intros K st rows E.
  - injection E as <-. exists []. split; constructor.
  - rewrite solve_loop_cons in E.
    destruct (_step fuel s K st t1) as [[st' K']| |] eqn:E1;
      try discriminate.
    destruct (solve_loop fuel s K' st' rest) as [rows'| |] eqn:E2;
      try discriminate.
    injection E as <-. apply IH in E2. destruct E2 as (sts & T & ->).
    exists (st' :: sts). split; [econstructor; eassumption | reflexivity].
Qed.

Lemma trajectory_length fuel K st targets sts :
  Trajectory fuel s K st targets sts -> length sts = length targets.
Proof. induction 1; simpl; auto. Qed.

Lemma trajectory_accepted fuel K st targets sts :
  Trajectory fuel s K st targets sts ->
  AcceptedTrajectory s st targets sts.
Proof.
  induction 1 as [|K st t1 rest st' K' sts E _ IH]; constructor; auto.
  eapply step_path; eassumption.
Qed.

Lemma solve_ok fuel yt :
  solve fuel s = Ok yt ->
  exists t0 ts1 rest sts,
    se_ts s = t0 :: ts1 :: rest
    /\ Trajectory fuel s (se_K s)
         (se_func s t0 (se_y0 s), t0, se_y0 s, ts1 - t0) (ts1 :: rest) sts
    /\ reshape_infer (concat (se_y0 s :: map rk_y sts)) (se_yshape s)
       = Ok yt.
Proof.
  unfold solve. destruct (se_ts s) as [|t0 [|ts1 rest]]; try discriminate.
  simpl tl.
  destruct (solve_loop _ _ _ _ _) as [rows| |] eqn:E; try discriminate.
  simpl bind. intros Hr.
  apply solve_loop_trajectory in E. destruct E as (sts & T & ->).
  exists t0, ts1, rest, sts. auto.
Qed.

(** Fuel only bounds the loops: a result, once reached, is the result
    for every larger fuel. *)
Lemma single_step_fuel fuel fuel' K st t1 r :
  _single_step fuel s K st t1 = Ok r -> (fuel <= fuel')%nat ->
  _single_step fuel' s K st t1 = Ok r.
Proof.
  rewrite !single_step_unfold. intros E L.
  apply single_step_loop_ok in E. destruct E as (rej & acc & S1 & L1 & ->).
  apply (single_step_loop_complete s _ _ _ _ _ _ _ _ _ S1). lia.
Qed.

Lemma step_loop_fuel n fuel :
  forall n' fuel' K st t1 r,
    _step_loop n fuel s K st t1 = Ok r ->
    (n <= n')%nat -> (fuel <= fuel')%nat ->
    _step_loop n' fuel' s K st t1 = Ok r.
Proof.
  induction n as [|n IH]; intros n' fuel' K st t1 r E Ln Lf; [discriminate|].
  destruct n' as [|n']; [lia|].
  rewrite step_loop_S in E |- *.
  destruct (_single_step fuel s K st t1) as [[[st1 ach] K1]| |] eqn:E1;
    try discriminate.
  rewrite (single_step_fuel _ fuel' _ _ _ _ E1 Lf).
  destruct ach; [exact E|]. apply IH; [exact E | lia | exact Lf].
Qed.

Lemma solve_loop_fuel fuel fuel' :
  (fuel <= fuel')%nat ->
  forall targets K st rows,
    solve_loop fuel s K st targets = Ok rows ->
    solve_loop fuel' s K st targets = Ok rows.
Proof.
  intros L. induction targets as [|t1 rest IH]; intros K st rows E;
    [exact E|].
  rewrite solve_loop_cons in E |- *.
  destruct (_step fuel s K st t1) as [[st' K']| |] eqn:E1; try discriminate.
  unfold _step in E1 |- *.
  rewrite (step_loop_fuel _ _ fuel' fuel' _ _ _ _ E1 L L).
  destruct (solve_loop fuel s K' st' rest) as [rows'| |] eqn:E2;
    try discriminate.
  rewrite (IH _ _ _ E2). exact E.
Qed.

Lemma solve_fuel fuel fuel' yt :
  solve fuel s = Ok yt -> (fuel <= fuel')%nat -> solve fuel' s = Ok yt.
Proof.
  unfold solve. destruct (se_ts s) as [|t0 [|ts1 rest]]; try discriminate.
  simpl tl. intros E L.
  destruct (solve_loop fuel s _ _ _) as [rows| |] eqn:E1; try discriminate.
  rewrite (solve_loop_fuel fuel fuel' L _ _ _ _ E1). exact E.
Qed.

Lemma reshape_infer_data (data : list R) rest yt :
  reshape_infer data rest = Ok yt -> tdata yt = data.
Proof.
  unfold reshape_infer.
  destruct (numel rest =? 0)%nat; [discriminate|].
  destruct (_ =? 0)%nat; [|discriminate].
  intros E; injection E as <-. reflexivity.
Qed.

(** C2.  An attempt is accepted if and only if its error norm
    [‖(K.T @ E) * hstep‖ / (atol + max(‖y0‖, ‖ynew‖) * rtol)] is below
    one, and every state [solve] returns after the first is the end of a
    chain of accepted sub-steps, each with error norm below one when it
    was accepted. *)
Theorem accepted_substeps_have_error_norm_below_one fuel yt :
  solve fuel s = Ok yt ->
  (forall K f0 t0 y0 h t1 pr,
      let a := attempt s K f0 t0 y0 h t1 pr in
      at_accepted a
      = (spec_error_norm s K f0 t0 y0 (at_hstep a) <? one))
  /\ exists t0 ts1 rest sts,
      se_ts s = t0 :: ts1 :: rest
      /\ tdata yt = concat (se_y0 s :: map rk_y sts)
      /\ AcceptedTrajectory s
           (se_func s t0 (se_y0 s), t0, se_y0 s, ts1 - t0) (ts1 :: rest) sts.
Proof.
  intros E. split.
  - intros K f0 t0 y0 h t1 pr. cbv zeta.
    rewrite <- attempt_errnorm. apply attempt_accepted.
  - apply solve_ok in E. destruct E as (t0 & ts1 & rest & sts & Ets & T & Hr).
    exists t0, ts1, rest, sts. repeat split; auto.
    + eapply reshape_infer_data; eassumption.
    + eapply trajectory_accepted; eassumption.
Qed.

End StepFacts.

(** ** Step-size adaptation *)

Section AdaptationFacts.

Context {R : Type} `{Scalar R}.
Local Open Scope scalar_scope.

Variable s : Session R.

Lemma last_cons_default {A} (x : A) (l : list A) (d : A) :
  last (x :: l) d = last l x.
Proof.
  revert x d; induction l as [|y l IH]; intros x d; [reflexivity|].
  change (last (x :: y :: l) d) with (last (y :: l) d).
  rewrite (IH y d), (IH y x). reflexivity.
Qed.

(** The accepted attempt of a search is entered with the step size the
    last rejection left, and knows whether there was one. *)
Lemma Search_accepted_entry f0 t0 y0 t1 K h pr rej acc :
  Search s f0 t0 y0 t1 K h pr rej acc ->
  exists K',
    acc = attempt s K' f0 t0 y0 (last (map at_h rej) h) t1
                  (match rej with [] => pr | _ :: _ => true end)
    /\ at_accepted acc = true.
Proof.
  induction 1 as [K h pr Ha | K h pr rej acc Ha _ IH].
  - exists K. split; [reflexivity | exact Ha].
  - destruct IH as (K' & E & Hacc). exists K'. split; [|exact Hacc].
    simpl map. rewrite last_cons_default.
    rewrite E at 1. destruct rej; reflexivity.
Qed.

(** Every rejected attempt of a search starts from the same
    [(f0, t0, y0)] and shrinks the step it used. *)
Lemma Search_rejected_attempts f0 t0 y0 t1 K h pr rej acc :
  Search s f0 t0 y0 t1 K h pr rej acc ->
  Forall (fun a =>
            (exists K' h' pr', a = attempt s K' f0 t0 y0 h' t1 pr')
            /\ at_accepted a = false
            /\ at_h a
               = at_hstep a
                 * py_max (min_factor (se_self s))
                          (step_mult (se_self s)
                           * at_errnorm a ** error_exponent (se_self s)))
         rej.
Proof.
  induction 1 as [K h pr Ha | K h pr rej acc Ha _ IH]; constructor; auto.
  split; [exists K, h, pr; reflexivity|]. split; [exact Ha|].
  pose proof (attempt_h s K f0 t0 y0 h t1 pr) as Hh. cbv zeta in Hh.
  rewrite Ha in Hh. exact Hh.
Qed.

Lemma accepted_attempt_h K f0 t0 y0 h t1 pr :
  let a := attempt s K f0 t0 y0 h t1 pr in
  at_accepted a = true ->
  at_h a
  = if at_t1_achieved a then h
    else h * (let factor :=
                if at_errnorm a =? zero then max_factor (se_self s)
                else py_min (max_factor (se_self s))
                            (step_mult (se_self s)
                             * at_errnorm a ** error_exponent (se_self s))
              in if pr then py_min one factor else factor).
Proof.
  cbv zeta. intros Ha.
  pose proof (attempt_h s K f0 t0 y0 h t1 pr) as Hh. cbv zeta in Hh.
  rewrite Ha in Hh. rewrite Hh.
  destruct (at_t1_achieved _); reflexivity.
Qed.

(** C4, as the code has it.  For a solver built by [__init__] for a
    scheme of estimator order [o], a call of [_single_step] that returns
    has made rejected attempts [rej] and one accepted attempt [acc], all
    from the same [(f0, t0, y0)].  Each rejection sets
    [h = hstep * max(0.2, 0.9 * errnorm ** (-1/(o+1)))].  The acceptance
    leaves [h] alone when the sub-step is terminal; otherwise it
    multiplies [h] by [min(10, 0.9 * errnorm ** (-1/(o+1)))] (by [10]
    when [errnorm == 0]), and by no more than [1.0] when an attempt was
    rejected before it. *)
Theorem step_size_adaptation_rule
        (cls : SolverClass) (a_tol r_tol : R) (fuel : nat)
        (K : list (vec R)) (st : rk_state R) (t1 : R)
        (st' : rk_state R) (ach : bool) (K' : list (vec R)) :
  init cls a_tol r_tol = Ok (se_self s) ->
  _single_step fuel s K st t1 = Ok (st', ach, K') ->
  exists o rej acc,
    cls_error_estimator_order cls = Some o
    /\ Search s (rk_f st) (rk_t st) (rk_y st) t1 K (rk_h st) false rej acc
    /\ st' = state_of acc /\ ach = at_t1_achieved acc
    /\ Forall (fun a =>
                 (exists K1 h1 pr1,
                     a = attempt s K1 (rk_f st) (rk_t st) (rk_y st) h1 t1 pr1)
                 /\ at_h a = at_hstep a * spec_shrink o (at_errnorm a))
              rej
    /\ rk_h st'
       = if ach then last (map at_h rej) (rk_h st)
         else last (map at_h rej) (rk_h st)
              * spec_growth_capped o (match rej with [] => false | _ => true end)
                                   (at_errnorm acc).
Proof.
  intros Hinit E.
  apply init_ok_fields in Hinit.
  destruct Hinit as (o & Ho & _ & _ & _ & Hmax & Hmin & Hmult & Hexp).
  apply single_step_search in E.
  destruct E as (rej & acc & S1 & _ & -> & -> & _).
  exists o, rej, acc. split; [exact Ho|]. split; [exact S1|].
  split; [reflexivity|]. split; [reflexivity|]. split.
  - pose proof (Search_rejected_attempts _ _ _ _ _ _ _ _ _ S1) as F.
    eapply Forall_impl; [|exact F]. cbv beta.
    intros a (Hex & _ & Hh). split; [exact Hex|].
    rewrite Hh, Hmin, Hmult, Hexp. reflexivity.
  - destruct (Search_accepted_entry _ _ _ _ _ _ _ _ _ S1) as (K1 & Eacc & Ha).
    unfold state_of, rk_h. simpl snd.
    rewrite Eacc in Ha |- *.
    rewrite (accepted_attempt_h _ _ _ _ _ _ _ Ha).
    destruct (at_t1_achieved _); [reflexivity|].
    unfold spec_growth_capped, spec_growth. rewrite Hmax, Hmult, Hexp.
    destruct rej; reflexivity.
Qed.

(** *** Clamping and termination of an interval *)

Lemma attempt_clamp K f0 t0 y0 h t1 pr :
  let a := attempt s K f0 t0 y0 h t1 pr in
  ((t1 <? t0 + h) = true ->
   at_t1_achieved a = true /\ at_hstep a = t1 - t0
   /\ at_tnew a = t0 + (t1 - t0))
  /\ ((t1 <? t0 + h) = false ->
      at_t1_achieved a = false /\ at_hstep a = h /\ at_tnew a = t0 + h).
Proof.
  cbv zeta. rewrite attempt_tnew, attempt_hstep, attempt_t1_achieved.
  split; intros ->; repeat split.
Qed.

(** C5, as the code has it.  An attempt whose proposal [t0 + h] is
    strictly beyond [t1] uses the step [t1 - t0] and is terminal; any
    other attempt uses [h] and is not.  The loop of [_step] returns
    exactly when a terminal sub-step is accepted, after sub-steps that
    were not terminal; that sub-step ends at [t + (t1 - t)], which is
    [t1] when the arithmetic is exact, and its state is what [solve]
    records for the grid point. *)
Theorem interval_ends_on_clamped_substep
        (fuel : nat) (K : list (vec R)) (st : rk_state R) (t1 : R)
        (rest : list R) (rows : list (vec R)) :
  solve_loop fuel s K st (t1 :: rest) = Ok rows ->
  (forall K0 f0 t0 y0 h pr,
      let a := attempt s K0 f0 t0 y0 h t1 pr in
      at_t1_achieved a = (t1 <? t0 + h)
      /\ at_hstep a = (if t1 <? t0 + h then t1 - t0 else h))
  /\ (forall st' K',
        _step fuel s K st t1 = Ok (st', K')
        <-> exists mids Klast last,
            Substeps fuel s t1 K st mids Klast last st' K'
            /\ (length mids < fuel)%nat)
  /\ exists st' K' mids Klast stl rej acc,
      _step fuel s K st t1 = Ok (st', K')
      /\ nth_error rows 0 = Some (rk_y st')
      /\ Substeps fuel s t1 K st mids Klast stl st' K'
      /\ Search s (rk_f stl) (rk_t stl) (rk_y stl) t1 Klast (rk_h stl)
                false rej acc
      /\ st' = state_of acc
      /\ at_t1_achieved acc = true
      /\ (t1 <? rk_t stl + last (map at_h rej) (rk_h stl)) = true
      /\ at_hstep acc = t1 - rk_t stl
      /\ rk_t st' = rk_t stl + (t1 - rk_t stl)
      /\ ((forall a b : R, (a + (b - a) =? b) = true) ->
          (rk_t st' =? t1) = true).
Proof.
  intros E. split; [|split].
  - intros K0 f0 t0 y0 h pr. cbv zeta.
    rewrite attempt_t1_achieved, attempt_hstep. split; reflexivity.
  - intros st' K'. unfold _step. split.
    + apply step_loop_substeps.
    + intros (mids & Klast & stl & Sb & L).
      eapply substeps_step_loop; eassumption.
  - rewrite solve_loop_cons in E.
    destruct (_step fuel s K st t1) as [[st' K']| |] eqn:E1;
      try discriminate.
    destruct (solve_loop fuel s K' st' rest) as [rows'| |];
      try discriminate.
    injection E as <-.
    unfold _step in E1. apply step_loop_substeps in E1.
    destruct E1 as (mids & Klast & stl & Sb & _).
    pose proof (substeps_terminal _ _ _ _ _ _ _ _ _ _ Sb) as Et.
    apply single_step_search in Et.
    destruct Et as (rej & acc & S1 & _ & Est & Hach & _).
    exists st', K', mids, Klast, stl, rej, acc.
    destruct (Search_accepted_entry _ _ _ _ _ _ _ _ _ S1) as (K1 & Eacc & _).
    assert (Hlt : (t1 <? rk_t stl + last (map at_h rej) (rk_h stl)) = true).
    { rewrite Hach, Eacc, attempt_t1_achieved. reflexivity. }
    destruct (attempt_clamp K1 (rk_f stl) (rk_t stl) (rk_y stl)
                (last (map at_h rej) (rk_h stl)) t1
                (match rej with [] => false | _ :: _ => true end))
      as [Hc _].
    rewrite <- Eacc in Hc. destruct (Hc Hlt) as (_ & Hh & Ht).
    assert (Ht' : rk_t st' = rk_t stl + (t1 - rk_t stl)).
    { rewrite Est. exact Ht. }
    repeat split; auto.
    intros Hcancel. rewrite Ht'. apply Hcancel.
Qed.

End AdaptationFacts.

(** ** No growth after a rejection *)

Section GrowthCap.

Context {R : Type} `{Scalar R}.
Local Open Scope scalar_scope.

Variable s : Session R.

Hypothesis laws : OrderLaws.
Hypothesis min_factor_eq : min_factor (se_self s) = lit (2 # 10)%Q.
Hypothesis step_mult_eq : step_mult (se_self s) = lit (9 # 10)%Q.
Hypothesis exponent_negative : (error_exponent (se_self s) <? zero) = true.

Lemma le_refl a : le a a.
Proof. apply (lt_irrefl laws). Qed.

Lemma lt_le a b : (a <? b) = true -> le a b.
Proof. apply (lt_asym laws). Qed.

Lemma py_min_one_le g : le (py_min one g) one.
Proof.
  unfold py_min. destruct (g <? one) eqn:E.
  - apply lt_le. exact E.
  - apply le_refl.
Qed.

(** The factor of a rejection lies between zero and one. *)
Lemma shrink_factor_bounds e :
  (e <? one) = false ->
  let f := py_max (min_factor (se_self s))
                  (step_mult (se_self s) * e ** error_exponent (se_self s)) in
  le zero f /\ le f one.
Proof.
  intros He. cbv zeta. rewrite min_factor_eq, step_mult_eq.
  assert (H0m : le zero (lit (2 # 10)%Q)).
  { apply (lit_le laws). discriminate. }
  assert (Hm1 : le (lit (2 # 10)%Q) one).
  { apply (lit_le laws). discriminate. }
  assert (H0s : le zero (lit (9 # 10)%Q)).
  { apply (lit_le laws). discriminate. }
  assert (Hs1 : le (lit (9 # 10)%Q) one).
  { apply (lit_le laws). discriminate. }
  unfold py_max.
  match goal with
  | |- context [if ?c then _ else _] => destruct c eqn:E
  end; [|split; assumption].
  split.
  - apply (le_trans laws) with (lit (2 # 10)%Q); [exact H0m|].
    apply lt_le. exact E.
  - apply (le_trans laws) with (lit (9 # 10)%Q); [|exact Hs1].
    apply (mul_le_self laws); [exact H0s|].
    apply (pow_le_one laws); [exact He | exact exponent_negative].
Qed.

Section OneSearch.

Variables (f0 : vec R) (t0 : R) (y0 : vec R) (t1 : R).
Hypothesis t0_le_t1 : le t0 t1.

Lemma attempt_hstep_bounds K h pr :
  le zero h ->
  let a := attempt s K f0 t0 y0 h t1 pr in
  le zero (at_hstep a) /\ le (at_hstep a) h.
Proof.
  intros Hh. cbv zeta. rewrite attempt_hstep.
  destruct (t1 <? t0 + h) eqn:E.
  - split.
    + apply (sub_nonneg laws). exact t0_le_t1.
    + apply (sub_le_of_lt_add laws). exact E.
  - split; [exact Hh | apply le_refl].
Qed.

Lemma rejected_attempt_shrinks K h pr :
  le zero h ->
  let a := attempt s K f0 t0 y0 h t1 pr in
  at_accepted a = false ->
  le zero (at_h a) /\ le (at_h a) (at_hstep a).
Proof.
  intros Hh. cbv zeta. intros Ha.
  pose proof (attempt_h s K f0 t0 y0 h t1 pr) as E. cbv zeta in E.
  rewrite Ha in E. cbn [andb negb] in E. rewrite E.
  destruct (attempt_hstep_bounds K h pr Hh) as [H0 _].
  pose proof (attempt_accepted s K f0 t0 y0 h t1 pr) as Hacc.
  cbv zeta in Hacc. rewrite Ha in Hacc. symmetry in Hacc.
  destruct (shrink_factor_bounds _ Hacc) as [F0 F1].
  split.
  - apply (mul_nonneg laws); assumption.
  - apply (mul_le_self laws); assumption.
Qed.

Lemma accepted_after_rejection_capped K h :
  le zero h ->
  let a := attempt s K f0 t0 y0 h t1 true in
  at_accepted a = true -> le (at_h a) h.
Proof.
  intros Hh. cbv zeta. intros Ha.
  rewrite (accepted_attempt_h s K f0 t0 y0 h t1 true Ha).
  destruct (at_t1_achieved _); [apply le_refl|].
  apply (mul_le_self laws); [exact Hh | apply py_min_one_le].
Qed.

Lemma Search_step_sizes K h pr rej acc :
  Search s f0 t0 y0 t1 K h pr rej acc ->
  le zero h ->
  Forall (fun r => le (at_hstep acc) (at_hstep r)
                   /\ le (at_h acc) (at_hstep r)) rej
  /\ le (at_hstep acc) h
  /\ (pr = true -> le (at_h acc) h).
Proof.
  induction 1 as [K h pr Ha | K h pr rej acc Ha _ IH]; intros Hh.
  - split; [constructor|]. split.
    + apply attempt_hstep_bounds. exact Hh.
    + intros ->. apply accepted_after_rejection_capped; assumption.
  - destruct (rejected_attempt_shrinks K h pr Hh Ha) as [R0 R1].
    destruct (attempt_hstep_bounds K h pr Hh) as [_ B1].
    destruct (IH R0) as (F & A1 & A2). specialize (A2 eq_refl).
    set (a := attempt s K f0 t0 y0 h t1 pr) in *.
    assert (C1 : le (at_hstep acc) (at_hstep a)).
    { apply (le_trans laws) with (at_h a); assumption. }
    assert (C2 : le (at_h acc) (at_hstep a)).
    { apply (le_trans laws) with (at_h a); assumption. }
    split; [constructor; [split; assumption | exact F]|]. split.
    + apply (le_trans laws) with (at_hstep a); assumption.
    + intros _. apply (le_trans laws) with (at_hstep a); assumption.
Qed.

End OneSearch.

(** C6.  In exact arithmetic, for a step towards a target that is not
    behind the current time and a proposal that is not negative: the
    accepted sub-step that follows a rejected one uses a step size that
    does not exceed the rejected step size, and the step size it leaves
    for the next sub-step does not exceed it either, its growth factor
    being [min(1.0, factor)]. *)
Theorem accepted_step_after_rejection_is_no_larger
        (fuel : nat) (K : list (vec R)) (st : rk_state R) (t1 : R)
        (st' : rk_state R) (ach : bool) (K' : list (vec R)) :
  le zero (rk_h st) ->
  le (rk_t st) t1 ->
  _single_step fuel s K st t1 = Ok (st', ach, K') ->
  exists rej acc,
    Search s (rk_f st) (rk_t st) (rk_y st) t1 K (rk_h st) false rej acc
    /\ st' = state_of acc
    /\ Forall (fun r => at_accepted r = false
                        /\ le (at_hstep acc) (at_hstep r)
                        /\ le (rk_h st') (at_hstep r)) rej
    /\ (rej <> [] ->
        rk_h st'
        = if ach then last (map at_h rej) (rk_h st)
          else last (map at_h rej) (rk_h st)
               * py_min one
                   (if at_errnorm acc =? zero then max_factor (se_self s)
                    else py_min (max_factor (se_self s))
                           (step_mult (se_self s)
                            * at_errnorm acc ** error_exponent (se_self s)))).
Proof.
  intros Hh Ht E. apply single_step_search in E.
  destruct E as (rej & acc & S1 & _ & -> & -> & _).
  exists rej, acc. split; [exact S1|]. split; [reflexivity|].
  destruct (Search_step_sizes _ _ _ _ Ht _ _ _ _ _ S1 Hh) as (F & _ & _).
  destruct (Search_rejected s _ _ _ _ _ _ _ _ _ S1) as [Frej _].
  split.
  - rewrite Forall_forall in *. intros r Hr.
    destruct (F r Hr) as [F1 F2]. repeat split; auto.
  - intros Hne.
    destruct (Search_accepted_entry s _ _ _ _ _ _ _ _ _ S1) as (K1 & Eacc & Ha).
    unfold state_of, rk_h at 1. simpl snd.
    rewrite Eacc in Ha |- *.
    rewrite (accepted_attempt_h s _ _ _ _ _ _ _ Ha).
    destruct rej; [congruence|]. reflexivity.
Qed.

End GrowthCap.

(** ** Shapes along the trajectory *)

Section WidthFacts.

Context {R : Type} `{Scalar R}.
Local Open Scope scalar_scope.

Variable s : Session R.
Variable n : nat.
Hypothesis func_width : keeps_width n (se_func s).

Lemma attempt_width K f0 t0 y0 h t1 pr :
  length f0 = n -> length y0 = n -> rows_of_width n K ->
  let a := attempt s K f0 t0 y0 h t1 pr in
  length (at_ynew a) = n /\ length (at_fnew a) = n
  /\ rows_of_width n (at_K a).
Proof.
  intros Hf Hy HK. cbv zeta.
  pose proof (attempt_rk_step s K f0 t0 y0 h t1 pr) as E. cbv zeta in E.
  pose proof (rk_step_width (se_func s) t0 y0
                (at_hstep (attempt s K f0 t0 y0 h t1 pr)) n f0
                (se_A s) (se_B s) (se_C s) K func_width Hy Hf HK) as W.
  cbv zeta in W. rewrite E in W. exact W.
Qed.

Lemma Search_width f0 t0 y0 t1 K h pr rej acc :
  Search s f0 t0 y0 t1 K h pr rej acc ->
  length f0 = n -> length y0 = n -> rows_of_width n K ->
  state_width n (state_of acc) /\ rows_of_width n (at_K acc).
Proof.
  induction 1 as [K h pr Ha | K h pr rej acc Ha _ IH]; intros Hf Hy HK.
  - destruct (attempt_width K f0 t0 y0 h t1 pr Hf Hy HK) as (W1 & W2 & W3).
    repeat split; assumption.
  - apply IH; auto.
    apply (attempt_width K f0 t0 y0 h t1 pr Hf Hy HK).
Qed.

Lemma single_step_width fuel K st t1 st' ach K' :
  _single_step fuel s K st t1 = Ok (st', ach, K') ->
  state_width n st -> rows_of_width n K ->
  state_width n st' /\ rows_of_width n K'.
Proof.
  intros E [Hf Hy] HK. apply single_step_search in E.
  destruct E as (rej & acc & S1 & _ & -> & _ & ->).
  eapply Search_width; eassumption.
Qed.

Lemma substeps_width fuel t1 K st mids Klast stl st' K' :
  Substeps fuel s t1 K st mids Klast stl st' K' ->
  state_width n st -> rows_of_width n K ->
  state_width n st' /\ rows_of_width n K'.
Proof.
  induction 1 as [K st st' K' E | K st st1 K1 mids Klast stl st' K' E _ IH];
    intros Hst HK.
  - eapply single_step_width; eassumption.
  - destruct (single_step_width _ _ _ _ _ _ _ E Hst HK) as [H1 H2].
    apply IH; assumption.
Qed.

Lemma step_width fuel K st t1 st' K' :
  _step fuel s K st t1 = Ok (st', K') ->
  state_width n st -> rows_of_width n K ->
  state_width n st' /\ rows_of_width n K'.
Proof.
  unfold _step. intros E. apply step_loop_substeps in E.
  destruct E as (mids & Klast & stl & Sb & _).
  eapply substeps_width; eassumption.
Qed.

Lemma trajectory_width fuel K st targets sts :
  Trajectory fuel s K st targets sts ->
  state_width n st -> rows_of_width n K ->
  Forall (fun r => length r = n) (map rk_y sts).
Proof.
  induction 1 as [|K st t1 rest st' K' sts E _ IH]; intros Hst HK;
    simpl; constructor.
  - destruct (step_width _ _ _ _ _ _ E Hst HK) as [[_ Hy] _]. exact Hy.
  - destruct (step_width _ _ _ _ _ _ E Hst HK) as [H1 H2].
    apply IH; assumption.
Qed.

(** [_single_step], [_step] and the loop of [solve] raise nothing. *)
Lemma step_loop_no_raise m fuel :
  forall K st t1 e, _step_loop m fuel s K st t1 <> Raise e.
Proof.
  induction m as [|m IH]; intros K st t1 e; [discriminate|].
  rewrite step_loop_S.
  destruct (_single_step fuel s K st t1) as [[[st' [|]] K']|e'|] eqn:E;
    try discriminate.
  - apply IH.
  - rewrite single_step_unfold in E.
    exfalso. exact (single_step_loop_no_raise s fuel _ _ _ _ _ _ _ _ E).
Qed.

Lemma solve_loop_no_raise fuel :
  forall targets K st e, solve_loop fuel s K st targets <> Raise e.
Proof.
  induction targets as [|t1 rest IH]; intros K st e; [discriminate|].
  rewrite solve_loop_cons.
  destruct (_step fuel s K st t1) as [[st' K']|e'|] eqn:E;
    try discriminate.
  - destruct (solve_loop fuel s K' st' rest) as [rows|e'|] eqn:E2;
      try discriminate.
    exfalso. exact (IH _ _ _ E2).
  - exfalso. exact (step_loop_no_raise _ _ _ _ _ _ E).
Qed.

End WidthFacts.

Section ChunkFacts.

Context {A : Type}.

Lemma concat_length_uniform n (rows : list (list A)) :
  Forall (fun r => length r = n) rows ->
  length (concat rows) = (length rows * n)%nat.
Proof.
  induction 1 as [|r rows Hr _ IH]; simpl; [reflexivity|].
  rewrite length_app, IH, Hr. reflexivity.
Qed.

(** The [i]-th block of [n] elements of a concatenation of rows of
    length [n] is the [i]-th row. *)
Lemma concat_chunk n (rows : list (list A)) :
  Forall (fun r => length r = n) rows ->
  forall i r, nth_error rows i = Some r ->
              firstn n (skipn (i * n) (concat rows)) = r.
Proof.
  induction 1 as [|r0 rows Hr _ IH]; intros [|i] r Hi; try discriminate;
    simpl in Hi |- *.
  - injection Hi as <-. rewrite <- Hr at 1.
    rewrite firstn_app, firstn_all, Nat.sub_diag, firstn_0, app_nil_r.
    reflexivity.
  - rewrite skipn_app, Hr.
    replace (n + i * n - n)%nat with (i * n)%nat by lia.
    rewrite (skipn_all2 r0) by lia. simpl. apply IH. exact Hi.
Qed.

End ChunkFacts.

(** ** [setup] and [solve] *)

Section SolveFacts.

Context {R : Type} `{Scalar R}.
Local Open Scope scalar_scope.

Context {P : Type}.
Variable self : Solver R.
Variable fcn : R -> Tensor R -> P -> Tensor R.
Variable ts : list R.
Variable y0 : Tensor R.
Variable params : P.
Variable uninit : nat -> nat -> R.

(** What a successful [setup] has stored. *)
Lemma setup_ok_fields (s : Session R) :
  setup self fcn ts y0 params uninit = Ok s ->
  exists ts0 ts1 rest stages,
    ts = ts0 :: ts1 :: rest
    /\ cls_n_stages (solver_cls self) = Some stages
    /\ se_self s = self
    /\ se_yshape s = tshape y0
    /\ se_y0 s = tdata y0
    /\ se_K s = map (fun i => map (uninit i) (seq 0 (length (tdata y0))))
                   (seq 0 (stages + 1))
    /\ se_ts s = (if ts1 - ts0 <? zero then map s_neg ts else ts)
    /\ se_func s
       = (if ts1 - ts0 <? zero
          then fun t y =>
                 vneg (tdata (fcn (- t) (mkTensor (tshape y0) y) params))
          else fun t y => tdata (fcn t (mkTensor (tshape y0) y) params)).
Proof.
  unfold setup. destruct ts as [|ts0 [|ts1 rest]]; try discriminate.
  intros Hs.
  destruct (cls_n_stages (solver_cls self)) as [stages|];
    [|destruct (_ <? _); discriminate].
  destruct (cls_A (solver_cls self)) as [A|];
    [|destruct (_ <? _); discriminate].
  destruct (cls_B (solver_cls self)) as [B|];
    [|destruct (_ <? _); discriminate].
  destruct (cls_C (solver_cls self)) as [C|];
    [|destruct (_ <? _); discriminate].
  destruct (cls_E (solver_cls self)) as [E|];
    [|destruct (_ <? _); discriminate].
  exists ts0, ts1, rest, stages.
  destruct (ts1 - ts0 <? zero); cbn [bind attr] in Hs; injection Hs as <-;
    repeat split.
Qed.

(** [setup] fails only for want of two time points or of a class
    attribute. *)
Lemma setup_registered :
  In (solver_cls self) registered ->
  (2 <= length ts)%nat ->
  exists s, setup self fcn ts y0 params uninit = Ok s.
Proof.
  intros Hin Hlen. unfold setup.
  destruct ts as [|ts0 [|ts1 rest]]; simpl in Hlen; try lia.
  destruct Hin as [<-|[<-|[]]]; simpl; destruct (_ <? _); eexists;
    reflexivity.
Qed.

Lemma setup_index_error :
  In (solver_cls self) registered ->
  (setup self fcn ts y0 params uninit = Raise IndexError
   <-> (length ts < 2)%nat).
Proof.
  intros Hin. split.
  - intros E. destruct (Nat.lt_ge_cases (length ts) 2) as [L|L]; [exact L|].
    destruct (setup_registered Hin L) as [s Hs]. congruence.
  - unfold setup. destruct ts as [|ts0 [|ts1 rest]]; simpl; try lia;
      reflexivity.
Qed.

Variable s : Session R.
Hypothesis setup_ok : setup self fcn ts y0 params uninit = Ok s.

Lemma session_func_width :
  valid_tensor y0 ->
  shaped_like_state fcn params (tshape y0) ->
  keeps_width (numel (tshape y0)) (se_func s).
Proof.
  intros Hv Hf.
  destruct (setup_ok_fields s setup_ok)
    as (ts0 & ts1 & rest & stages & _ & _ & _ & _ & _ & _ & _ & Efunc).
  rewrite Efunc. intros t y Hy.
  assert (Hy' : valid_tensor (mkTensor (tshape y0) y)) by exact Hy.
  destruct (ts1 - ts0 <? zero).
  - rewrite vneg_length.
    destruct (Hf (- t) _ Hy' eq_refl) as [V1 V2].
    unfold valid_tensor in V1. rewrite V1, V2. reflexivity.
  - destruct (Hf t _ Hy' eq_refl) as [V1 V2].
    unfold valid_tensor in V1. rewrite V1, V2. reflexivity.
Qed.

Lemma session_buffer_width :
  rows_of_width (length (tdata y0)) (se_K s).
Proof.
  destruct (setup_ok_fields s setup_ok)
    as (ts0 & ts1 & rest & stages & _ & _ & _ & _ & _ & EK & _ & _).
  rewrite EK. unfold rows_of_width. apply Forall_forall.
  intros r Hr. apply in_map_iff in Hr. destruct Hr as (i & <- & _).
  rewrite length_map, length_seq. reflexivity.
Qed.

(** For the registered schemes, [setup] builds the shapes [rk_step]
    relies on. *)
Lemma setup_kernel_shapes :
  In (solver_cls self) registered ->
  kernel_shapes (length (tdata y0)) (se_A s) (se_B s) (se_C s) (se_K s).
Proof.
  intros Hin. pose proof session_buffer_width as HK.
  pose proof setup_ok as Hs. unfold setup in Hs.
  destruct ts as [|ts0 [|ts1 rest]]; try discriminate.
  destruct Hin as [Hc|[Hc|[]]]; rewrite <- Hc in Hs; cbn [bind attr RK23 RK45
    cls_n_stages cls_A cls_B cls_C cls_E] in Hs;
    destruct (ts1 - ts0 <? zero); injection Hs as Hs; rewrite <- Hs in HK |- *;
    cbn [se_A se_B se_C se_K] in HK |- *;
    (split; [simpl; lia|]); (split; [reflexivity|]); (split; [reflexivity|]);
    (split; [|split; [reflexivity | exact HK]]);
    intros i Hi; simpl in Hi;
    do 6 (destruct i as [|i]; [simpl; lia|]); lia.
Qed.

(** [solve] either runs out of fuel or reshapes the rows of a
    trajectory. *)
Lemma solve_cases fuel :
  solve fuel s = Timeout
  \/ exists t0 t1 rest sts,
      se_ts s = t0 :: t1 :: rest
      /\ Trajectory fuel s (se_K s)
           (se_func s t0 (se_y0 s), t0, se_y0 s, t1 - t0) (t1 :: rest) sts
      /\ solve fuel s
         = reshape_infer (concat (se_y0 s :: map rk_y sts)) (se_yshape s).
Proof.
  destruct (setup_ok_fields s setup_ok)
    as (ts0 & ts1 & rest & stages & Ets & _ & _ & _ & _ & _ & Ets' & _).
  assert (Hts : exists t0 t1 rest', se_ts s = t0 :: t1 :: rest').
  { rewrite Ets', Ets. destruct (_ <? _); simpl; eauto. }
  destruct Hts as (t0 & t1 & rest' & Hts).
  unfold solve. rewrite Hts. simpl tl.
  destruct (solve_loop _ _ _ _ _) as [rows|e|] eqn:E.
  - right. apply solve_loop_trajectory in E. destruct E as (sts & T & ->).
    exists t0, t1, rest', sts. repeat split; auto.
  - exfalso. exact (solve_loop_no_raise s fuel _ _ _ _ E).
  - left. reflexivity.
Qed.

End SolveFacts.

Section EmptyState.

Context {R : Type} `{Scalar R}.

(** With a state of no element the final [reshape(-1, *yshape)] is
    refused, so [solve] returns nothing. *)
Lemma solve_empty_shape (s : Session R) (fuel : nat) (yt : Tensor R) :
  numel (se_yshape s) = 0%nat -> solve fuel s <> Ok yt.
Proof.
  intros Hn. unfold solve.
  destruct (se_ts s) as [|t0 [|t1 rest]]; try discriminate.
  destruct (solve_loop _ _ _ _ _) as [rows| |]; try discriminate.
  simpl bind. unfold reshape_infer. rewrite Hn. discriminate.
Qed.

End EmptyState.

Section SolveTheorems.

Context {R : Type} `{Scalar R}.
Local Open Scope scalar_scope.


Lemma reshape_infer_rows (rows : list (vec R)) (shape : list nat) :
  numel shape <> 0%nat ->
  Forall (fun r => length r = numel shape) rows ->
  reshape_infer (concat rows) shape
  = Ok (mkTensor (length rows :: shape) (concat rows)).
Proof.
  intros Hn Hrows. unfold reshape_infer.
  rewrite (concat_length_uniform (numel shape) rows Hrows).
  destruct (numel shape =? 0)%nat eqn:E0.
  - apply Nat.eqb_eq in E0. contradiction.
  - rewrite Nat.Div0.mod_mul, Nat.eqb_refl, Nat.div_mul by exact Hn.
    reflexivity.
Qed.

Lemma tindex_rows (rows : list (vec R)) (shape : list nat) i r :
  Forall (fun r => length r = numel shape) rows ->
  nth_error rows i = Some r ->
  tindex (mkTensor (length rows :: shape) (concat rows)) i
  = Some (mkTensor shape r).
Proof.
  intros Hrows Hi. unfold tindex. simpl.
  assert (Hlt : (i <? length rows)%nat = true).
  { apply Nat.ltb_lt. apply nth_error_Some. congruence. }
  rewrite Hlt, (concat_chunk (numel shape) rows Hrows i r Hi). reflexivity.
Qed.

Context {P : Type}.
Variable self : Solver R.
Variable fcn : R -> Tensor R -> P -> Tensor R.
Variable ts : list R.
Variable y0 : Tensor R.
Variable params : P.
Variable uninit : nat -> nat -> R.


(** Apart from states with no element, [solve] does restore the shape.
    For a registered scheme, a [y0] with at least one element and a
    derivative shaped like the state, [solve] on a session that [setup]
    built (so [ts] has two entries or more) raises nothing: it returns,
    unless the step-size search does not converge within the fuel, a
    tensor with one entry per entry of [ts], each of the shape of [y0],
    the first being [y0] itself. *)
Lemma solve_returns_one_state_per_time (s : Session R) (fuel : nat) :
  In (solver_cls self) registered ->
  valid_tensor y0 ->
  numel (tshape y0) <> 0%nat ->
  shaped_like_state fcn params (tshape y0) ->
  setup self fcn ts y0 params uninit = Ok s ->
  (2 <= length ts)%nat
  /\ (solve fuel s = Timeout
      \/ exists yt,
          solve fuel s = Ok yt
          /\ tshape yt = length ts :: tshape y0
          /\ (forall i, (i < length ts)%nat ->
                exists row, tindex yt i = Some (mkTensor (tshape y0) row)
                            /\ length row = numel (tshape y0))
          /\ tindex yt 0 = Some y0).
Proof.
  intros _ Hv Hn Hf Hs.
  destruct (setup_ok_fields self fcn ts y0 params uninit s Hs)
    as (a & b & r & stages & Ets & _ & _ & Eshape & Ey0 & _ & Ets' & _).
  split; [rewrite Ets; simpl; lia|].
  destruct (solve_cases self fcn ts y0 params uninit s Hs fuel)
    as [Ht | (t0 & t1 & rest' & sts & Ese & T & Esolve)]; [left; exact Ht|].
  right.
  pose proof (session_func_width self fcn ts y0 params uninit s Hs Hv Hf)
    as Hw.
  pose proof (session_buffer_width self fcn ts y0 params uninit s Hs) as HK.
  unfold valid_tensor in Hv. rewrite Hv in HK.
  assert (Hst : state_width (numel (tshape y0))
                  (se_func s t0 (se_y0 s), t0, se_y0 s, t1 - t0)).
  { split; simpl; [apply Hw|]; rewrite Ey0; exact Hv. }
  pose proof (trajectory_width s _ Hw _ _ _ _ _ T Hst HK) as Hrows.
  assert (Hall : Forall (fun r => length r = numel (tshape y0))
                        (se_y0 s :: map rk_y sts)).
  { constructor; [rewrite Ey0; exact Hv | exact Hrows]. }
  assert (Hlen : length (se_y0 s :: map rk_y sts) = length ts).
  { simpl. rewrite length_map, (trajectory_length s _ _ _ _ _ T).
    assert (E : length (se_ts s) = length ts).
    { rewrite Ets'. destruct (_ <? _); [apply length_map | reflexivity]. }
    rewrite <- E, Ese. reflexivity. }
  rewrite Eshape in Esolve.
  rewrite (reshape_infer_rows _ _ Hn Hall) in Esolve.
  eexists. split; [exact Esolve|]. rewrite Hlen. split; [reflexivity|].
  split.
  - intros i Hi. rewrite <- Hlen in Hi.
    destruct (nth_error (se_y0 s :: map rk_y sts) i) as [row|] eqn:Ei.
    + exists row. split.
      * rewrite <- Hlen. apply tindex_rows; assumption.
      * rewrite Forall_forall in Hall. apply Hall.
        eapply nth_error_In; exact Ei.
    + apply nth_error_None in Ei. lia.
  - rewrite <- Hlen.
    rewrite (tindex_rows _ _ 0 (se_y0 s) Hall eq_refl).
    rewrite Ey0. destruct y0; reflexivity.
Qed.

(** C9, as the code has it.  Nothing looks at the order of [ts]: on a
    registered scheme [setup] rejects [ts] exactly when it has fewer
    than two entries, and otherwise succeeds, taking the direction from
    the sign of [ts[1] - ts[0]] alone; and on the session it builds, for
    a [y0] with at least one element and a derivative shaped like the
    state, [solve] raises nothing either, whatever the order of [ts]:
    it returns a tensor with one entry per entry of [ts], or its
    step-size search does not come to an end. *)
Theorem setup_accepts_any_grid_of_two_points :
  In (solver_cls self) registered ->
  (setup self fcn ts y0 params uninit = Raise IndexError
   <-> (length ts < 2)%nat)
  /\ ((2 <= length ts)%nat ->
      exists s,
        setup self fcn ts y0 params uninit = Ok s
        /\ se_ts s = (if nth 1 ts zero - nth 0 ts zero <? zero
                      then map s_neg ts else ts)
        /\ (valid_tensor y0 ->
            numel (tshape y0) <> 0%nat ->
            shaped_like_state fcn params (tshape y0) ->
            forall fuel,
              solve fuel s = Timeout
              \/ exists yt,
                  solve fuel s = Ok yt
                  /\ tshape yt = length ts :: tshape y0)).
Proof.
  intros Hin. split; [apply setup_index_error; exact Hin|].
  intros Hlen.
  destruct (setup_registered self fcn ts y0 params uninit Hin Hlen)
    as [s Hs].
  exists s. split; [exact Hs|].
  split.
  - destruct (setup_ok_fields self fcn ts y0 params uninit s Hs)
      as (a & b & r & stages & Ets & _ & _ & _ & _ & _ & Ets' & _).
    rewrite Ets', Ets. reflexivity.
  - intros Hv Hn Hf fuel.
    destruct (solve_returns_one_state_per_time s fuel Hin Hv Hn Hf Hs)
      as (_ & [Ht | (yt & E & Hshape & _)]); [left; exact Ht|].
    right. exists yt. split; assumption.
Qed.

End SolveTheorems.

(** ** A search that repeats itself *)

Section StuckSearch.

Context {R : Type} `{Scalar R}.
Local Open Scope scalar_scope.

Variable s : Session R.

(** A rejected attempt that leaves the buffer and the step size as it
    found them is repeated for ever. *)
Lemma single_step_loop_stuck K f0 t0 y0 h t1 :
  at_accepted (attempt s K f0 t0 y0 h t1 true) = false ->
  at_K (attempt s K f0 t0 y0 h t1 true) = K ->
  at_h (attempt s K f0 t0 y0 h t1 true) = h ->
  forall fuel, _single_step_loop fuel s K f0 t0 y0 h t1 true = Timeout.
Proof.
  intros Ha EK Eh. induction fuel as [|fuel IH]; [reflexivity|].
  rewrite single_step_loop_S, Ha, EK, Eh. exact IH.
Qed.

(** [_step] does not return when its first attempt is rejected and the
    attempt after it repeats itself. *)
Lemma step_loop_stuck K f0 t0 y0 h t1 :
  at_accepted (attempt s K f0 t0 y0 h t1 false) = false ->
  at_accepted (attempt s (at_K (attempt s K f0 t0 y0 h t1 false)) f0 t0 y0
                       (at_h (attempt s K f0 t0 y0 h t1 false)) t1 true)
  = false ->
  at_K (attempt s (at_K (attempt s K f0 t0 y0 h t1 false)) f0 t0 y0
                (at_h (attempt s K f0 t0 y0 h t1 false)) t1 true)
  = at_K (attempt s K f0 t0 y0 h t1 false) ->
  at_h (attempt s (at_K (attempt s K f0 t0 y0 h t1 false)) f0 t0 y0
                (at_h (attempt s K f0 t0 y0 h t1 false)) t1 true)
  = at_h (attempt s K f0 t0 y0 h t1 false) ->
  forall n fuel, _step_loop n fuel s K (f0, t0, y0, h) t1 = Timeout.
Proof.
  intros Ha Hb EK Eh [|n] fuel; [reflexivity|].
  rewrite step_loop_S, single_step_unfold.
  unfold rk_f, rk_t, rk_y, rk_h. cbn [fst snd].
  destruct fuel as [|fuel]; [reflexivity|].
  rewrite single_step_loop_S, Ha. cbn [negb].
  rewrite (single_step_loop_stuck _ _ _ _ _ _ Hb EK Eh). reflexivity.
Qed.

End StuckSearch.


(** ** The rational instance satisfies the order laws *)

Section RationalFacts.

Local Open Scope Z_scope.

Lemma iroot_bits_spec (k : positive) (n : Z) :
  forall (bits : nat) (r : Z),
    0 <= r ->
    r ^ Zpos k <= n < (r + 2 ^ Z.of_nat bits) ^ Zpos k ->
    0 <= iroot_bits k n bits r
    /\ iroot_bits k n bits r ^ Zpos k <= n
       < (iroot_bits k n bits r + 1) ^ Zpos k.
Proof.
  induction bits as [|b IH]; intros r Hr Hb.
  - simpl in *. auto.
  - cbn [iroot_bits].
    assert (H2 : 0 <= 2 ^ Z.of_nat b) by (apply Z.pow_nonneg; lia).
    assert (E2 : 2 ^ Z.of_nat (S b) = 2 ^ Z.of_nat b + 2 ^ Z.of_nat b).
    { rewrite Nat2Z.inj_succ, Z.pow_succ_r by lia. lia. }
    destruct (((r + 2 ^ Z.of_nat b) ^ Zpos k) <=? n) eqn:E.
    + apply Z.leb_le in E. apply IH; [lia|]. split; [exact E|].
      replace (r + 2 ^ Z.of_nat b + 2 ^ Z.of_nat b)
        with (r + 2 ^ Z.of_nat (S b)) by lia.
      apply Hb.
    + apply Z.leb_gt in E. apply IH; [exact Hr|]. split; [apply Hb|exact E].
Qed.

Lemma iroot_spec (k : positive) (n : Z) :
  0 <= n ->
  0 <= iroot k n /\ iroot k n ^ Zpos k <= n < (iroot k n + 1) ^ Zpos k.
Proof.
  intros Hn. unfold iroot. apply iroot_bits_spec; [lia|].
  rewrite Z.pow_0_l by lia. split; [exact Hn|].
  rewrite Z.add_0_l, Nat2Z.inj_succ, Z2Nat.id by apply Z.log2_nonneg.
  assert (Hlt : n < 2 ^ Z.succ (Z.log2 n)).
  { destruct (Z.eq_dec n 0) as [->|Hne]; [reflexivity|].
    apply Z.log2_spec. lia. }
  assert (Hpos : 0 < 2 ^ Z.succ (Z.log2 n)).
  { apply Z.pow_pos_nonneg; [lia|]. pose proof (Z.log2_nonneg n). lia. }
  apply Z.lt_le_trans with (2 ^ Z.succ (Z.log2 n)); [exact Hlt|].
  rewrite <- (Z.pow_1_r (2 ^ Z.succ (Z.log2 n))) at 1.
  apply Z.pow_le_mono_r; lia.
Qed.

Lemma iroot_mono (k : positive) (n m : Z) :
  0 <= n <= m -> iroot k n <= iroot k m.
Proof.
  intros [Hn Hm].
  destruct (iroot_spec k n Hn) as (V0 & V1 & _).
  destruct (iroot_spec k m ltac:(lia)) as (W0 & _ & W2).
  assert (Hlt : iroot k n ^ Zpos k < (iroot k m + 1) ^ Zpos k) by lia.
  apply Z.pow_lt_mono_l_iff in Hlt; lia.
Qed.

Lemma iroot_pos (k : positive) (n : Z) : 1 <= n -> 1 <= iroot k n.
Proof.
  intros Hn. destruct (iroot_spec k n ltac:(lia)) as (V0 & _ & V2).
  destruct (Z.eq_dec (iroot k n) 0) as [E|E]; [|lia].
  rewrite E, Z.add_0_l, Z.pow_1_l in V2 by lia. lia.
Qed.

Local Close Scope Z_scope.
Local Open Scope Q_scope.

Lemma q_ltb_lt (a b : Q) : q_ltb a b = true <-> a < b.
Proof. unfold q_ltb, Qlt. apply Z.ltb_lt. Qed.

Lemma q_ltb_ge (a b : Q) : q_ltb a b = false <-> b <= a.
Proof. unfold q_ltb, Qle. apply Z.ltb_ge. Qed.

Lemma q_le_iff (a b : Q) : le a b <-> a <= b.
Proof. unfold le. simpl. apply q_ltb_ge. Qed.

Lemma q_root_ge_one (k : positive) (x : Q) : 1 <= x -> 1 <= q_root k x.
Proof.
  intros Hx. unfold q_root.
  assert (Hr : 1 <= Qred x) by (rewrite Qred_correct; exact Hx).
  destruct (Qred x) as [p q]. unfold Qle in Hr. simpl in Hr |- *.
  assert (Hq : (1 <= iroot k (Zpos q))%Z) by (apply iroot_pos; lia).
  assert (Hm : (iroot k (Zpos q) <= iroot k p)%Z) by (apply iroot_mono; lia).
  unfold Qle. simpl. rewrite Z2Pos.id by lia. lia.
Qed.

Lemma q_pow_le_one (x e : Q) : 1 <= x -> e < 0 -> q_pow x e <= 1.
Proof.
  intros Hx He. unfold q_pow. rewrite Qred_correct.
  assert (He' : Qred e < 0) by (rewrite Qred_correct; exact He).
  destruct (Qred e) as [p k]. unfold Qlt in He'. simpl in He' |- *.
  pose proof (q_root_ge_one k x Hx) as Hr.
  destruct p as [|p|p]; try lia.
  cbn [Qpower].
  pose proof (Qpower_1_le_pos (q_root k x) p Hr) as Hp. cbn [Qpower] in Hp.
  apply Qle_shift_inv_r; lra.
Qed.

Lemma zero_is_zero : (zero : Q) = 0.
Proof. reflexivity. Qed.

Lemma one_is_one : (one : Q) = 1.
Proof. reflexivity. Qed.

Lemma q_lt_true (a b : Q) : (a <? b)%S = true <-> a < b.
Proof. apply q_ltb_lt. Qed.

Lemma q_lt_false (a b : Q) : (a <? b)%S = false <-> b <= a.
Proof. apply q_ltb_ge. Qed.

Ltac to_rationals :=
  repeat match goal with
         | Hx : le _ _ |- _ => apply q_le_iff in Hx
         | Hx : (_ <? _)%S = true |- _ => apply q_lt_true in Hx
         | Hx : (_ <? _)%S = false |- _ => apply q_lt_false in Hx
         | |- le _ _ => apply q_le_iff
         | |- (_ <? _)%S = false => apply q_lt_false
         | |- (_ <? _)%S = true => apply q_lt_true
         end;
  rewrite ?zero_is_zero, ?one_is_one in *;
  cbn [lit s_add s_sub s_mul s_neg s_pow QScalar] in *;
  unfold q_lit, q_add, q_sub, q_mul, q_neg in *;
  rewrite ?Qred_correct in *.

Lemma QScalar_laws : @OrderLaws Q QScalar.
Proof.
  constructor; intros; to_rationals.
  - apply Qle_refl.
  - apply Qlt_le_weak. assumption.
  - eapply Qle_trans; eassumption.
  - assumption.
  - nra.
  - nra.
  - apply q_pow_le_one; assumption.
  - lra.
  - lra.
Qed.

Lemma q_add_sub_cancel (a b : Q) : (a + (b - a) =? b)%S = true.
Proof.
  simpl. unfold q_eqb, q_add, q_sub. apply Qeq_bool_iff.
  rewrite !Qred_correct. ring.
Qed.


End RationalFacts.

(** ** The properties on concrete runs *)

Section Runs.

Import Examples.
Local Open Scope scalar_scope.

Lemma q_mul_comm (a b : Q) : (a * b)%S = (b * a)%S.
Proof. simpl. unfold q_mul. apply Qred_complete. ring. Qed.

Lemma init_RK23 (a r : Q) : init RK23 a r = Ok (solver23 a r).
Proof. reflexivity. Qed.

Lemma fcn_still_shaped (shape : list nat) :
  shaped_like_state fcn_still tt shape.
Proof.
  intros t y Hv Hs. unfold fcn_still, valid_tensor in *. simpl.
  rewrite length_map. auto.
Qed.

Lemma fcn_decay_shaped (shape : list nat) :
  shaped_like_state fcn_decay tt shape.
Proof.
  intros t y Hv Hs. unfold fcn_decay, valid_tensor in *. simpl.
  rewrite length_map. auto.
Qed.

Lemma kernel_shapes_23 : kernel_shapes 1 A23 B23 C23 K_one.
Proof.
  repeat split; simpl; try lia.
  - intros [|[|[|i]]] Hi; simpl; lia.
  - repeat constructor.
Qed.

Lemma decay_keeps_width (n : nat) : keeps_width n decay.
Proof. intros t y Hy. unfold decay. rewrite length_map. exact Hy. Qed.

(** One step of [RK23] on [y' = -y] from [y = 1] with [h = 1/10]. *)
Lemma rk_step_fills_stage_buffer_witness :
  let r := rk_step decay 0%Q [1%Q] [(-1)%Q] (1 # 10)%Q
                   (A23, B23, C23, K_one) in
  length (snd r) = 4%nat
  /\ nth_error (snd r) 0 = Some [(-1)%Q]
  /\ nth_error (snd r) 3 = Some (snd (fst r))
  /\ snd (fst r) = decay (0 + 1 # 10)%Q (fst (fst r))
  /\ fst (fst r) = [(5429 # 6000)%Q].
Proof.
  pose proof (rk_step_fills_stage_buffer decay 0%Q [1%Q] [(-1)%Q]
                (1 # 10)%Q A23 B23 C23 K_one q_mul_comm
                kernel_shapes_23 (decay_keeps_width 1) eq_refl) as W.
  cbv zeta in W. destruct W as (W1 & W2 & _ & W4 & _ & W6).
  cbv zeta. repeat split; try assumption.
Defined.

(** [y' = -y] over [0, 0.1, 0.2]: the run returns, and every state it
    returns ends a chain of accepted sub-steps. *)
Lemma accepted_substeps_have_error_norm_below_one_witness :
  exists s yt,
    setup (solver23 doc_atol doc_rtol) fcn_decay grid_up (scalar_state 1)
          tt blank = Ok s
    /\ solve 50 s = Ok yt
    /\ exists t0 ts1 rest sts,
        se_ts s = t0 :: ts1 :: rest
        /\ tdata yt = concat (se_y0 s :: map rk_y sts)
        /\ AcceptedTrajectory s
             (se_func s t0 (se_y0 s), t0, se_y0 s, (ts1 - t0)%S)
             (ts1 :: rest) sts.
Proof.
  eexists. eexists. split; [reflexivity|].
  split; [vm_compute; reflexivity|].
  refine (proj2 (accepted_substeps_have_error_norm_below_one _ 50 _ _)).
  vm_compute. reflexivity.
Defined.

(** [RK23(atol=1, rtol=0)] on [fcn_kick] from [y = 0] towards [t1 = 1]
    with [h = 1]: the first attempt has error norm exactly [1] and is
    rejected, leaving [h = 0.9]; the second has error norm [0], is
    accepted and is not terminal.  The step size it leaves is [0.9], not
    ten times that. *)
Lemma growth_after_rejection_is_not_max_factor :
  exists s st' K',
    setup (solver23 1 0) fcn_kick grid_unit (scalar_state 0) tt blank = Ok s
    /\ _single_step 2 s (se_K s) (se_func s 0%Q [0%Q], 0%Q, [0%Q], 1%Q) 1%Q
       = Ok (st', false, K')
    /\ rk_h st' = (9 # 10)%Q
    /\ at_errnorm (attempt s K_one [0%Q] 0%Q [0%Q] (9 # 10)%Q 1%Q true)
       = 0%Q
    /\ ((9 # 10)%Q * spec_growth 2 0%Q)%S = 9%Q
    /\ ~ uncapped_growth_rule s 2.
Proof.
  eexists. eexists. eexists. split; [reflexivity|].
  split; [vm_compute; reflexivity|].
  split; [reflexivity|]. split; [vm_compute; reflexivity|].
  split; [reflexivity|].
  intros Hc.
  specialize (Hc K_one [0%Q] 0%Q [0%Q] (9 # 10)%Q 1%Q true).
  cbv zeta in Hc.
  specialize (Hc ltac:(vm_compute; reflexivity) ltac:(vm_compute; reflexivity)).
  vm_compute in Hc. discriminate.
Qed.

Lemma step_size_adaptation_rule_witness :
  exists s st' K',
    setup (solver23 1 0) fcn_kick grid_unit (scalar_state 0) tt blank = Ok s
    /\ _single_step 2 s (se_K s) (se_func s 0%Q [0%Q], 0%Q, [0%Q], 1%Q) 1%Q
       = Ok (st', false, K')
    /\ exists o rej acc,
        cls_error_estimator_order RK23 = Some o
        /\ Search s [0%Q] 0%Q [0%Q] 1%Q (se_K s) 1%Q false rej acc
        /\ st' = state_of acc
        /\ Forall (fun a => at_h a
                            = (at_hstep a * spec_shrink o (at_errnorm a))%S)
                  rej
        /\ rk_h st'
           = (last (map at_h rej) 1%Q
              * spec_growth_capped o (match rej with [] => false | _ => true end)
                                   (at_errnorm acc))%S.
Proof.
  eexists. eexists. eexists. split; [reflexivity|].
  split; [vm_compute; reflexivity|].
  match goal with
  | |- exists o rej acc, _ /\ Search ?s _ _ _ _ ?K _ _ rej acc /\ ?st' = _ /\ _ =>
      assert (E0 : _single_step 2 s K ([0%Q], 0%Q, [0%Q], 1%Q) 1%Q
                   = Ok (st', false, [[0%Q]; [0%Q]; [0%Q]; [0%Q]]))
        by (vm_compute; reflexivity);
      pose proof (step_size_adaptation_rule s RK23 1%Q 0%Q 2 K
                    ([0%Q], 0%Q, [0%Q], 1%Q) 1%Q st' false _
                    (init_RK23 1%Q 0%Q) E0) as W
  end.
  destruct W as (o & rej & acc & Ho & S1 & Est & _ & F & Hh).
  exists o, rej, acc. split; [exact Ho|]. split; [exact S1|].
  split; [exact Est|]. split; [|exact Hh].
  eapply Forall_impl; [|exact F]. intros a [_ Ha]. exact Ha.
Defined.

(** [RK23] on [fcn_still] over [0, 1]: the first sub-step uses
    [h = ts[1] - ts[0] = 1], ends exactly on [t1 = 1] and is accepted,
    but it is not terminal; the loop of [_step] goes on with a second
    sub-step, of size zero, which is the terminal one. *)
Lemma substep_on_target_does_not_end_interval :
  exists s st1 K1 st2 K2,
    setup (solver23 doc_atol doc_rtol) fcn_still grid_unit (scalar_state 1)
          tt blank = Ok s
    /\ _single_step 1 s (se_K s) (se_func s 0%Q [1%Q], 0%Q, [1%Q], 1%Q) 1%Q
       = Ok (st1, false, K1)
    /\ rk_t st1 = 1%Q
    /\ _step 1 s (se_K s) (se_func s 0%Q [1%Q], 0%Q, [1%Q], 1%Q) 1%Q
       = Timeout
    /\ _single_step 1 s K1 st1 1%Q = Ok (st2, true, K2)
    /\ rk_t st2 = 1%Q
    /\ ~ lands_on_target_rule 1 s.
Proof.
  eexists. eexists. eexists. eexists. eexists. split; [reflexivity|].
  split; [vm_compute; reflexivity|]. split; [reflexivity|].
  split; [vm_compute; reflexivity|].
  split; [vm_compute; reflexivity|]. split; [reflexivity|].
  intros Hc.
  match goal with
  | Hc : lands_on_target_rule _ ?s |- _ =>
      specialize (Hc (se_K s) ([0%Q], 0%Q, [1%Q], 1%Q) 1%Q
                     ([0%Q], 1%Q, [1%Q], 10%Q) false
                     [[0%Q]; [0%Q]; [0%Q]; [0%Q]]
                     ltac:(vm_compute; reflexivity))
  end.
  destruct Hc as [_ Hc]. specialize (Hc eq_refl). discriminate.
Qed.

Lemma interval_ends_on_clamped_substep_witness :
  exists s rows,
    setup (solver23 doc_atol doc_rtol) fcn_still grid_unit (scalar_state 1)
          tt blank = Ok s
    /\ solve_loop 2 s (se_K s) ([0%Q], 0%Q, [1%Q], 1%Q) [1%Q] = Ok rows
    /\ exists st' K' mids stl,
        _step 2 s (se_K s) ([0%Q], 0%Q, [1%Q], 1%Q) 1%Q = Ok (st', K')
        /\ nth_error rows 0 = Some (rk_y st')
        /\ (exists Klast,
              Substeps 2 s 1%Q (se_K s) ([0%Q], 0%Q, [1%Q], 1%Q) mids
                       Klast stl st' K')
        /\ rk_t st' = (rk_t stl + (1%Q - rk_t stl))%S
        /\ (rk_t st' =? 1%Q)%S = true.
Proof.
  eexists. eexists. split; [reflexivity|].
  split; [vm_compute; reflexivity|].
  match goal with
  | |- exists st' K' mids stl,
        _step 2 ?s ?K ?st ?t1 = _ /\ nth_error ?rows 0 = _ /\ _ =>
      assert (E0 : solve_loop 2 s K st [t1] = Ok rows)
        by (vm_compute; reflexivity);
      pose proof (interval_ends_on_clamped_substep s 2 K st t1 [] rows E0)
        as W
  end.
  destruct W as (_ & _ & st' & K' & mids & Klast & stl & rej & acc
                 & E & Hrow & Sb & _ & _ & _ & _ & _ & Ht & Hland).
  exists st', K', mids, stl. split; [exact E|]. split; [exact Hrow|].
  split; [exists Klast; exact Sb|]. split; [exact Ht|].
  apply Hland. exact q_add_sub_cancel.
Defined.

(** The rejection and the acceptance of [fcn_kick], compared. *)
Lemma accepted_step_after_rejection_is_no_larger_witness :
  exists s st' K',
    setup (solver23 1 0) fcn_kick grid_unit (scalar_state 0) tt blank = Ok s
    /\ _single_step 2 s (se_K s) ([0%Q], 0%Q, [0%Q], 1%Q) 1%Q
       = Ok (st', false, K')
    /\ exists rej acc,
        Search s [0%Q] 0%Q [0%Q] 1%Q (se_K s) 1%Q false rej acc
        /\ st' = state_of acc
        /\ Forall (fun r => at_accepted r = false
                            /\ le (at_hstep acc) (at_hstep r)
                            /\ le (rk_h st') (at_hstep r)) rej.
Proof.
  eexists. eexists. eexists. split; [reflexivity|].
  split; [vm_compute; reflexivity|].
  match goal with
  | |- exists rej acc, Search ?s _ _ _ _ ?K _ _ rej acc /\ ?st' = _ /\ _ =>
      assert (E0 : _single_step 2 s K ([0%Q], 0%Q, [0%Q], 1%Q) 1%Q
                   = Ok (st', false, [[0%Q]; [0%Q]; [0%Q]; [0%Q]]))
        by (vm_compute; reflexivity);
      pose proof (accepted_step_after_rejection_is_no_larger s QScalar_laws
                    eq_refl eq_refl eq_refl 2 K ([0%Q], 0%Q, [0%Q], 1%Q) 1%Q
                    st' false _ eq_refl eq_refl E0) as W
  end.
  destruct W as (rej & acc & S1 & Est & F & _).
  exists rej, acc. split; [exact S1|]. split; [exact Est | exact F].
Defined.


(** C8.  [solve] flattens [y0] and restores its shape at the end with
    [yt.reshape(-1, *self.yshape)].  For a [y0] with no element
    ([torch.zeros((0,))]) over [ts = [0, 1]] the run goes through both
    sub-steps and then ends in the [RuntimeError] of that reshape, which
    cannot infer the leading dimension; no fuel makes it return. *)
Theorem empty_state_is_refused :
  rk23_adaptive 2 fcn_still grid_unit empty_state tt doc_atol doc_rtol blank
  = Raise RuntimeError
  /\ forall fuel yt,
      rk23_adaptive fuel fcn_still grid_unit empty_state tt
                    doc_atol doc_rtol blank <> Ok yt.
Proof.
  split; [vm_compute; reflexivity|].
  intros fuel yt. unfold rk23_adaptive, _rk_adaptive.
  rewrite init_RK23. cbn [bind].
  match goal with
  | |- context [setup ?a ?b ?c ?d ?e ?f] =>
      destruct (setup a b c d e f) as [s| |] eqn:Es
  end; cbn [bind]; try discriminate.
  apply solve_empty_shape.
  destruct (setup_ok_fields _ _ _ _ _ _ s Es)
    as (a & b & r & stages & _ & _ & _ & Eshape & _).
  rewrite Eshape. reflexivity.
Qed.

Lemma solve_returns_one_state_per_time_witness :
  exists s,
    setup (solver23 doc_atol doc_rtol) fcn_decay grid_up (scalar_state 1)
          tt blank = Ok s
    /\ exists yt,
        solve 50 s = Ok yt
        /\ tshape yt = [3; 1]%nat
        /\ tindex yt 0 = Some (scalar_state 1).
Proof.
  eexists. split; [reflexivity|].
  match goal with
  | |- exists yt, solve 50 ?s = _ /\ _ =>
      pose proof (solve_returns_one_state_per_time
                    (solver23 doc_atol doc_rtol) fcn_decay grid_up
                    (scalar_state 1) tt blank s 50 (or_introl eq_refl)
                    eq_refl ltac:(discriminate) (fcn_decay_shaped _) eq_refl)
        as W
  end.
  destruct W as (_ & [Ht | (yt & E & Hshape & _ & H0)]).
  - exfalso. vm_compute in Ht. discriminate.
  - exists yt. split; [exact E|]. split; [exact Hshape | exact H0].
Defined.

(** The grid [0, 1, 0.5] is neither increasing nor decreasing, and
    nothing refuses it: [setup] builds a session; with [fcn = 0 * y] the
    run returns a value for each of the three times; with [fcn = -y] it
    raises nothing and does not return, whatever the fuel, because the
    rejected step back from [1] to [0.5] is proposed again unchanged. *)
Lemma zigzag_grid_is_accepted :
  strictly_increasing grid_zigzag = false
  /\ strictly_decreasing grid_zigzag = false
  /\ (exists s,
        setup (solver23 doc_atol doc_rtol) fcn_still grid_zigzag
              (scalar_state 1) tt blank = Ok s)
  /\ rk23_adaptive 3 fcn_still grid_zigzag (scalar_state 1) tt
                   doc_atol doc_rtol blank
     = Ok (mkTensor [3; 1]%nat [1; 1; 1]%Q)
  /\ forall fuel,
      rk23_adaptive fuel fcn_decay grid_zigzag (scalar_state 1) tt
                    doc_atol doc_rtol blank
      = Timeout.
Proof.
  split; [reflexivity|]. split; [reflexivity|].
  split; [eexists; reflexivity|].
  split; [vm_compute; reflexivity|].
  intros fuel. unfold rk23_adaptive, _rk_adaptive.
  rewrite init_RK23. cbn [bind].
  assert (Hrun :
    exists s st1 K1,
      setup (solver23 doc_atol doc_rtol) fcn_decay grid_zigzag
            (scalar_state 1) tt blank = Ok s
      /\ se_ts s = grid_zigzag
      /\ _step 2 s (se_K s) (se_func s 0%Q (se_y0 s), 0%Q, se_y0 s,
                             (1%Q - 0%Q)%S) 1%Q
         = Ok (st1, K1)
      /\ at_accepted (attempt s K1 (rk_f st1) (rk_t st1) (rk_y st1)
                              (rk_h st1) (1 # 2)%Q false) = false
      /\ (let a := attempt s K1 (rk_f st1) (rk_t st1) (rk_y st1)
                           (rk_h st1) (1 # 2)%Q false in
          let b := attempt s (at_K a) (rk_f st1) (rk_t st1) (rk_y st1)
                           (at_h a) (1 # 2)%Q true in
          at_accepted b = false /\ at_K b = at_K a /\ at_h b = at_h a)).
  { eexists. eexists. eexists. split; [reflexivity|].
    split; [reflexivity|]. split; [vm_compute; reflexivity|].
    vm_compute. repeat split. }
  destruct Hrun as (s & st1 & K1 & Es & Ets & E1 & Ha & Hb & EK & Eh).
  rewrite Es. cbn [bind]. unfold solve. rewrite Ets.
  unfold grid_zigzag. cbn [tl].
  rewrite solve_loop_cons.
  destruct (_step fuel s (se_K s) _ 1%Q) as [[st' K']|e|] eqn:E;
    [| exfalso; exact (step_loop_no_raise s _ _ _ _ _ _ E) | reflexivity].
  unfold _step in E, E1.
  pose proof (step_loop_fuel s _ _ (Nat.max fuel 2) (Nat.max fuel 2)
                _ _ _ _ E (Nat.le_max_l _ _) (Nat.le_max_l _ _)) as M.
  pose proof (step_loop_fuel s _ _ (Nat.max fuel 2) (Nat.max fuel 2)
                _ _ _ _ E1 (Nat.le_max_r _ _) (Nat.le_max_r _ _)) as M1.
  assert (Est : st' = st1) by congruence.
  assert (EKK : K' = K1) by congruence.
  subst st' K'. clear M M1 E.
  rewrite solve_loop_cons. unfold _step.
  destruct st1 as [[[f1 t1] y1] h1].
  unfold rk_f, rk_t, rk_y, rk_h in Ha, Hb, EK, Eh. cbn [fst snd] in *.
  rewrite (step_loop_stuck s K1 f1 t1 y1 h1 (1 # 2)%Q Ha Hb EK Eh).
  reflexivity.
Qed.

Lemma setup_accepts_any_grid_of_two_points_witness :
  exists s,
    setup (solver23 doc_atol doc_rtol) fcn_still grid_zigzag
          (scalar_state 1) tt blank = Ok s
    /\ se_ts s = grid_zigzag
    /\ forall fuel,
        solve fuel s = Timeout
        \/ exists yt, solve fuel s = Ok yt /\ tshape yt = [3; 1]%nat.
Proof.
  destruct (setup_accepts_any_grid_of_two_points
              (solver23 doc_atol doc_rtol) fcn_still grid_zigzag
              (scalar_state 1) tt blank (or_introl eq_refl))
    as [_ Hs].
  destruct (Hs ltac:(simpl; lia)) as (s & E & Ets & Hsolve).
  exists s. split; [exact E|]. split; [exact Ets|].
  exact (Hsolve eq_refl ltac:(discriminate) (fcn_still_shaped _)).
Defined.

Lemma base_class_cannot_be_constructed_witness :
  init RKAdaptiveStepSolver doc_atol doc_rtol = Raise TypeError
  /\ exists self,
      init RK45 doc_atol doc_rtol = Ok self
      /\ solver_cls self = RK45
      /\ error_exponent self = (-1 # 5)%Q.
Proof.
  destruct (@base_class_cannot_be_constructed Q _ doc_atol doc_rtol)
    as (Hb & _ & _ & _ & _ & _ & Hok & _).
  split; [exact Hb|].
  eexists. split; [apply (Hok RK45 4%Z); reflexivity|].
  split; reflexivity.
Defined.

End Runs.

(** * Further properties of the code *)

(** ** The stage buffer is overwritten before it is read *)

Section BufferIndependence.

Context {R : Type} `{Scalar R}.
Local Open Scope scalar_scope.

Lemma set_row_firstn_S (K : list (vec R)) i v :
  (i < length K)%nat -> firstn (S i) (set_row K i v) = firstn i K ++ [v].
Proof.
  revert i; induction K as [|r K IH]; intros [|i] Hi; simpl in *; try lia.
  - reflexivity.
  - f_equal. apply IH. lia.
Qed.

Lemma rk_stages_length func t y h (ac : list (vec R * R)) :
  forall s K, length (rk_stages func t y h ac s K) = length K.
Proof.
  induction ac as [|[a c] rest IH]; intros s K; simpl; [reflexivity|].
  rewrite IH. apply set_row_length.
Qed.

(** The rows the stage loop has passed depend only on the rows before
    its start. *)
Lemma rk_stages_agree func t y h (ac : list (vec R * R)) :
  forall s K1 K2,
    length K1 = length K2 ->
    (s + length ac <= length K1)%nat ->
    firstn s K1 = firstn s K2 ->
    firstn (s + length ac) (rk_stages func t y h ac s K1)
    = firstn (s + length ac) (rk_stages func t y h ac s K2).
Proof.
  induction ac as [|[a c] rest IH]; intros s K1 K2 HL Hs Hpre; simpl in *.
  - rewrite Nat.add_0_r. exact Hpre.
  - replace (s + S (length rest))%nat with (S s + length rest)%nat by lia.
    apply IH.
    + rewrite !set_row_length. exact HL.
    + rewrite set_row_length. lia.
    + rewrite !set_row_firstn_S by lia. rewrite Hpre. reflexivity.
Qed.

(** Two buffers of the right number of rows give the same step. *)
Lemma rk_step_buffer_irrelevant
        (func : R -> vec R -> vec R) (t : R) (y f : vec R) (h : R)
        (A : list (vec R)) (B C : vec R) (K1 K2 : list (vec R)) :
  (1 <= length A)%nat ->
  length C = length A ->
  length K1 = S (length A) ->
  length K2 = S (length A) ->
  rk_step func t y f h (A, B, C, K1) = rk_step func t y f h (A, B, C, K2).
Proof.
  intros HA HC H1 H2. unfold rk_step.
  set (ac := combine (tl A) (tl C)).
  assert (Hac : (1 + length ac = length A)%nat).
  { unfold ac. rewrite length_combine.
    destruct A as [|a0 A]; [simpl in HA; lia|].
    destruct C as [|c0 C]; [discriminate|]. simpl in *. lia. }
  set (M1 := rk_stages func t y h ac 1 (set_row K1 0 f)).
  set (M2 := rk_stages func t y h ac 1 (set_row K2 0 f)).
  assert (L1 : length M1 = S (length A)).
  { unfold M1. rewrite rk_stages_length, set_row_length. exact H1. }
  assert (L2 : length M2 = S (length A)).
  { unfold M2. rewrite rk_stages_length, set_row_length. exact H2. }
  assert (Hpre : firstn (length A) M1 = firstn (length A) M2).
  { rewrite <- Hac. apply rk_stages_agree.
    - rewrite !set_row_length. congruence.
    - rewrite set_row_length. lia.
    - rewrite !set_row_firstn_S by lia. reflexivity. }
  assert (Hrl : removelast M1 = removelast M2).
  { rewrite !removelast_firstn_len, L1, L2. exact Hpre. }
  rewrite Hrl.
  assert (HK : forall v,
             set_row M1 (length M1 - 1) v = set_row M2 (length M2 - 1) v).
  { intros v. rewrite L1, L2. simpl. rewrite Nat.sub_0_r.
    rewrite <- (firstn_all (set_row M1 (length A) v)).
    rewrite <- (firstn_all (set_row M2 (length A) v)).
    rewrite !set_row_length, L1, L2.
    rewrite !set_row_firstn_S by lia. rewrite Hpre. reflexivity. }
  rewrite HK. reflexivity.
Qed.

(** X1.  [rk_step] writes every row of the stage buffer before it reads
    it: for a tableau of [s >= 1] rows with [len(C) = s] and buffers of
    [s + 1] rows, the new state, the new derivative and the buffer it
    leaves do not depend on what the buffer held on entry. *)
Theorem rk_step_ignores_buffer_content
        (func : R -> vec R -> vec R) (t : R) (y f : vec R) (h : R)
        (A : list (vec R)) (B C : vec R) (K1 K2 : list (vec R)) :
  (1 <= length A)%nat ->
  length C = length A ->
  length K1 = S (length A) ->
  length K2 = S (length A) ->
  rk_step func t y f h (A, B, C, K1) = rk_step func t y f h (A, B, C, K2).
Proof.
  exact (rk_step_buffer_irrelevant func t y f h A B C K1 K2).
Qed.

End BufferIndependence.

(** ** What the loops do not depend on *)

Section SessionIndependence.

Context {R : Type} `{Scalar R}.
Local Open Scope scalar_scope.

(** The loop body reads the session only through the solver, the
    derivative, the tableau and the number of components. *)
Lemma attempt_same_kernel (s s' : Session R) :
  same_kernel s s' ->
  forall K f0 t0 y0 h t1 pr,
    attempt s K f0 t0 y0 h t1 pr = attempt s' K f0 t0 y0 h t1 pr.
Proof.
  destruct s, s'. unfold same_kernel. simpl.
  intros (-> & _ & -> & -> & -> & -> & -> & ->). reflexivity.
Qed.

Lemma attempt_K_length (s : Session R) K f0 t0 y0 h t1 pr :
  length (at_K (attempt s K f0 t0 y0 h t1 pr)) = length K.
Proof.
  pose proof (attempt_rk_step s K f0 t0 y0 h t1 pr) as E. cbv zeta in E.
  apply (f_equal snd) in E. cbn [snd] in E. rewrite <- E.
  unfold rk_step. cbv beta iota zeta. cbn [snd].
  rewrite set_row_length, rk_stages_length, set_row_length. reflexivity.
Qed.

Section FittingBuffer.

Variable s : Session R.
Hypothesis stages : (1 <= length (se_A s))%nat.
Hypothesis nodes : length (se_C s) = length (se_A s).

(** A buffer of the right number of rows. *)
Let fits (K : list (vec R)) : Prop := length K = S (length (se_A s)).

Lemma attempt_ignores_buffer K1 K2 f0 t0 y0 h t1 pr :
  fits K1 -> fits K2 ->
  attempt s K1 f0 t0 y0 h t1 pr = attempt s K2 f0 t0 y0 h t1 pr.
Proof.
  intros F1 F2. unfold attempt.
  rewrite (rk_step_buffer_irrelevant (se_func s) t0 y0 f0
             (if t1 <? t0 + h then t1 - t0 else h)
             (se_A s) (se_B s) (se_C s) K1 K2 stages nodes F1 F2).
  reflexivity.
Qed.

Lemma single_step_loop_ignores_buffer (s' : Session R) fuel :
  same_kernel s s' ->
  forall K1 K2 f0 t0 y0 h t1 pr,
    fits K1 -> fits K2 ->
    _single_step_loop fuel s K1 f0 t0 y0 h t1 pr
    = _single_step_loop fuel s' K2 f0 t0 y0 h t1 pr.
Proof.
  intros Hk. induction fuel as [|fuel IH];
    intros K1 K2 f0 t0 y0 h t1 pr F1 F2; [reflexivity|].
  rewrite !single_step_loop_S.
  rewrite <- (attempt_same_kernel s s' Hk).
  rewrite (attempt_ignores_buffer K1 K2 f0 t0 y0 h t1 pr F1 F2).
  destruct (at_accepted _); [reflexivity|].
  apply IH; unfold fits; rewrite attempt_K_length; exact F2.
Qed.

Lemma single_step_loop_fits fuel :
  forall K f0 t0 y0 h t1 pr st' ach K',
    _single_step_loop fuel s K f0 t0 y0 h t1 pr = Ok (st', ach, K') ->
    length K' = length K.
Proof.
  induction fuel as [|fuel IH]; intros K f0 t0 y0 h t1 pr st' ach K' E;
    [discriminate|].
  rewrite single_step_loop_S in E.
  destruct (at_accepted _).
  - assert (E' : at_K (attempt s K f0 t0 y0 h t1 pr) = K') by congruence.
    rewrite <- E'. apply attempt_K_length.
  - apply IH in E. rewrite E. apply attempt_K_length.
Qed.

Lemma step_loop_ignores_buffer (s' : Session R) n fuel :
  same_kernel s s' ->
  forall K1 K2 st t1,
    fits K1 -> fits K2 ->
    _step_loop n fuel s K1 st t1 = _step_loop n fuel s' K2 st t1.
Proof.
  intros Hk. induction n as [|n IH]; intros K1 K2 st t1 F1 F2;
    [reflexivity|].
  rewrite !step_loop_S, !single_step_unfold.
  rewrite <- (single_step_loop_ignores_buffer s' fuel Hk K1 K2) by assumption.
  destruct (_single_step_loop fuel s K1 _ _ _ _ _ _)
    as [[[st1 [|]] K']| |] eqn:E; try reflexivity.
  apply single_step_loop_fits in E.
  apply IH; unfold fits in *; congruence.
Qed.

Lemma step_fits fuel K st t1 st' K' :
  _step fuel s K st t1 = Ok (st', K') -> length K' = length K.
Proof.
  unfold _step. intros E. apply step_loop_substeps in E.
  destruct E as (mids & Klast & stl & Sb & _).
  induction Sb as [K st st' K' E | K st st1 K1 mids Klast stl st' K' E _ IH].
  - rewrite single_step_unfold in E.
    eapply single_step_loop_fits; exact E.
  - rewrite single_step_unfold in E.
    apply single_step_loop_fits in E. congruence.
Qed.

Lemma solve_loop_ignores_buffer (s' : Session R) fuel :
  same_kernel s s' ->
  forall targets K1 K2 st,
    fits K1 -> fits K2 ->
    solve_loop fuel s K1 st targets = solve_loop fuel s' K2 st targets.
Proof.
  intros Hk. induction targets as [|t1 rest IH]; intros K1 K2 st F1 F2;
    [reflexivity|].
  rewrite !solve_loop_cons. unfold _step.
  rewrite <- (step_loop_ignores_buffer s' fuel fuel Hk K1 K2) by assumption.
  fold (_step fuel s K1 st t1).
  destruct (_step fuel s K1 st t1) as [[st' K']| |] eqn:E; try reflexivity.
  apply step_fits in E.
  rewrite (IH K' K' st'); unfold fits in *; try congruence.
Qed.

End FittingBuffer.

Context {P : Type}.
Variable self : Solver R.
Variable fcn : R -> Tensor R -> P -> Tensor R.
Variable ts : list R.
Variable y0 : Tensor R.
Variable params : P.

(** Two calls of [setup] that differ in the uninitialised memory build
    the same session up to the content of the buffer. *)
Lemma setup_uninit (u1 u2 : nat -> nat -> R) :
  match setup self fcn ts y0 params u1, setup self fcn ts y0 params u2 with
  | Ok s1, Ok s2 =>
      same_kernel s1 s2 /\ se_ts s1 = se_ts s2
      /\ length (se_K s1) = length (se_K s2)
  | Raise e1, Raise e2 => e1 = e2
  | _, _ => False
  end.
Proof.
  unfold setup. destruct ts as [|ts0 [|ts1 rest]]; try reflexivity.
  destruct (ts1 - ts0 <? zero);
    destruct (cls_n_stages (solver_cls self)); try reflexivity;
    destruct (cls_A (solver_cls self)); try reflexivity;
    destruct (cls_B (solver_cls self)); try reflexivity;
    destruct (cls_C (solver_cls self)); try reflexivity;
    destruct (cls_E (solver_cls self)); try reflexivity;
    cbn [bind attr]; unfold same_kernel; cbn [se_self se_yshape se_y0
      se_func se_A se_B se_C se_E se_K se_ts];
    rewrite !length_map; repeat split.
Qed.

End SessionIndependence.

Section UninitialisedMemory.

Context {R : Type} `{Scalar R}.
Context {P : Type}.

(** X2.  For the registered schemes the outcome of the solver does not
    depend on the content of the memory [torch.empty] hands out for the
    stage buffer: whatever each cell holds ([u1 i j] in one run,
    [u2 i j] in the other), the two runs end alike. *)
Theorem result_ignores_uninitialised_memory
        (fuel : nat) (fcn : R -> Tensor R -> P -> Tensor R) (ts : list R)
        (y0 : Tensor R) (params : P) (cls : SolverClass) (a r : R)
        (u1 u2 : nat -> nat -> R) :
  In cls registered ->
  _rk_adaptive fuel fcn ts y0 params cls a r u1
  = _rk_adaptive fuel fcn ts y0 params cls a r u2.
Proof.
  intros Hin. unfold _rk_adaptive.
  destruct (init cls a r) as [self| |] eqn:Ei; try reflexivity.
  cbn [bind].
  assert (Hcls : solver_cls self = cls).
  { apply init_ok_fields in Ei. destruct Ei as (o & _ & E & _). exact E. }
  pose proof (setup_uninit self fcn ts y0 params u1 u2) as Hs.
  destruct (setup self fcn ts y0 params u1) as [s1|e1|] eqn:E1;
    destruct (setup self fcn ts y0 params u2) as [s2|e2|] eqn:E2;
    try contradiction; cbn [bind]; [|congruence].
  destruct Hs as (Hk & Ets & HL).
  assert (Hin' : In (solver_cls self) registered) by (rewrite Hcls; exact Hin).
  destruct (setup_kernel_shapes self fcn ts y0 params u1 s1 E1 Hin')
    as (HA & _ & HC & _ & HK1 & _).
  assert (Hy : se_yshape s1 = se_yshape s2 /\ se_y0 s1 = se_y0 s2
               /\ se_func s1 = se_func s2).
  { destruct Hk as (_ & Ey & E0 & Ef & _). auto. }
  destruct Hy as (Ey & E0 & Ef).
  unfold solve. rewrite <- Ets, <- Ey, <- E0, <- Ef.
  destruct (se_ts s1) as [|t0 [|t1 rest]]; try reflexivity.
  rewrite (solve_loop_ignores_buffer s1 HA HC s2 fuel Hk _
             (se_K s1) (se_K s2)); [reflexivity | exact HK1 | congruence].
Qed.

End UninitialisedMemory.

(** ** Invariants of the stepping loops *)

Section StepInvariants.

Context {R : Type} `{Scalar R}.
Local Open Scope scalar_scope.

Variable s : Session R.

Lemma attempt_fnew K f0 t0 y0 h t1 pr :
  let a := attempt s K f0 t0 y0 h t1 pr in
  at_fnew a = se_func s (at_tnew a) (at_ynew a).
Proof.
  cbv zeta. rewrite attempt_tnew.
  pose proof (attempt_rk_step s K f0 t0 y0 h t1 pr) as E. cbv zeta in E.
  unfold rk_step in E. cbv beta iota zeta in E.
  assert (E1 : at_ynew (attempt s K f0 t0 y0 h t1 pr)
               = fst (fst (at_ynew (attempt s K f0 t0 y0 h t1 pr),
                           at_fnew (attempt s K f0 t0 y0 h t1 pr),
                           at_K (attempt s K f0 t0 y0 h t1 pr))))
    by reflexivity.
  assert (E2 : at_fnew (attempt s K f0 t0 y0 h t1 pr)
               = snd (fst (at_ynew (attempt s K f0 t0 y0 h t1 pr),
                           at_fnew (attempt s K f0 t0 y0 h t1 pr),
                           at_K (attempt s K f0 t0 y0 h t1 pr))))
    by reflexivity.
  rewrite E2, E1 at 1. rewrite <- E. reflexivity.
Qed.

Lemma single_step_derivative fuel K st t1 st' ach K' :
  _single_step fuel s K st t1 = Ok (st', ach, K') ->
  rk_f st' = se_func s (rk_t st') (rk_y st').
Proof.
  intros E. apply single_step_search in E.
  destruct E as (rej & acc & S1 & _ & -> & _ & _).
  apply Search_accepted_attempt in S1.
  destruct S1 as (K1 & h1 & pr1 & -> & _ & _).
  apply attempt_fnew.
Qed.

Lemma step_derivative fuel K st t1 st' K' :
  _step fuel s K st t1 = Ok (st', K') ->
  rk_f st' = se_func s (rk_t st') (rk_y st').
Proof.
  unfold _step. intros E. apply step_loop_substeps in E.
  destruct E as (mids & Klast & stl & Sb & _).
  apply substeps_terminal in Sb.
  eapply single_step_derivative; exact Sb.
Qed.

(** X3.  The derivative carried in the step state is always the
    derivative at the state's time and value: this holds for the state
    [solve] starts with and for every state the stepping leaves, so the
    row 0 the kernel takes from the caller is the derivative at the
    start of the step. *)
Theorem step_state_carries_current_derivative (fuel : nat) (yt : Tensor R) :
  solve fuel s = Ok yt ->
  exists t0 ts1 rest sts,
    se_ts s = t0 :: ts1 :: rest
    /\ Trajectory fuel s (se_K s)
         (se_func s t0 (se_y0 s), t0, se_y0 s, ts1 - t0) (ts1 :: rest) sts
    /\ tdata yt = concat (se_y0 s :: map rk_y sts)
    /\ Forall (fun st => rk_f st = se_func s (rk_t st) (rk_y st))
              ((se_func s t0 (se_y0 s), t0, se_y0 s, ts1 - t0) :: sts).
Proof.
  intros E. apply solve_ok in E.
  destruct E as (t0 & ts1 & rest & sts & Ets & T & Hr).
  exists t0, ts1, rest, sts. split; [exact Ets|]. split; [exact T|].
  split; [eapply reshape_infer_data; exact Hr|].
  constructor; [reflexivity|].
  clear Hr Ets. induction T as [|K st t1 rest' st' K' sts E _ IH];
    constructor; auto.
  eapply step_derivative; exact E.
Qed.

(** A sub-step that is not terminal ends at [t0 + h] with [t0 + h] not
    beyond the target; a terminal one ends at [t0 + (t1 - t0)]. *)
Lemma single_step_lands fuel K st t1 st' ach K' :
  _single_step fuel s K st t1 = Ok (st', ach, K') ->
  exists hin,
    ach = (t1 <? rk_t st + hin)
    /\ rk_t st' = rk_t st + (if ach then t1 - rk_t st else hin).
Proof.
  intros E. apply single_step_search in E.
  destruct E as (rej & acc & S1 & _ & -> & -> & _).
  destruct (Search_accepted_entry s _ _ _ _ _ _ _ _ _ S1) as (K1 & Eacc & _).
  exists (last (map at_h rej) (rk_h st)).
  rewrite Eacc. unfold state_of, rk_t at 2. cbn [fst snd].
  rewrite attempt_tnew, attempt_hstep, attempt_t1_achieved.
  split; reflexivity.
Qed.

(** X4.  The stepper never steps past a requested time: on the way to
    [t1] every sub-step that is not the last ends at a time that [t1]
    is not below, and the last one ends at [t + (t1 - t)]. *)
Theorem step_never_passes_the_target
        (fuel : nat) (K : list (vec R)) (st : rk_state R) (t1 : R)
        (st' : rk_state R) (K' : list (vec R)) :
  _step fuel s K st t1 = Ok (st', K') ->
  exists mids Klast stl,
    Substeps fuel s t1 K st mids Klast stl st' K'
    /\ Forall (fun m => le (rk_t m) t1) mids
    /\ rk_t st' = rk_t stl + (t1 - rk_t stl).
Proof.
  unfold _step. intros E. apply step_loop_substeps in E.
  destruct E as (mids & Klast & stl & Sb & _).
  exists mids, Klast, stl. split; [exact Sb|].
  induction Sb as [K st st' K' E | K st st1 K1 mids Klast stl st' K' E _ IH].
  - split; [constructor|].
    apply single_step_lands in E. destruct E as (hin & _ & Ht). exact Ht.
  - destruct IH as [IH1 IH2]. split; [|exact IH2].
    constructor; [|exact IH1].
    apply single_step_lands in E. destruct E as (hin & Hach & Ht).
    unfold le. rewrite Ht. symmetry. exact Hach.
Qed.

End StepInvariants.

(** ** Bounds on the change of the step size *)

Section FactorBounds.

Context {R : Type} `{Scalar R}.
Local Open Scope scalar_scope.

Variable s : Session R.
Hypothesis laws : OrderLaws.

Lemma py_min_le_first a b : le (py_min a b) a.
Proof.
  unfold py_min. destruct (b <? a) eqn:E.
  - unfold le. apply (lt_asym laws). exact E.
  - apply (lt_irrefl laws).
Qed.

Lemma py_max_ge_first a b : le a (py_max a b).
Proof.
  unfold py_max. destruct (a <? b) eqn:E.
  - unfold le. apply (lt_asym laws). exact E.
  - apply (lt_irrefl laws).
Qed.

(** X5.  One pass of the step-size search changes the step size by a
    bounded factor.  For a solver built by [__init__]: a rejected
    attempt leaves [h = hstep * f] with [f] no less than [0.2]; an
    accepted attempt that is not terminal leaves [h * g] with [g] no
    more than [10], and no more than [1] when the attempt before it was
    rejected; an accepted terminal attempt leaves [h] as it was. *)
Theorem step_size_changes_by_a_bounded_factor
        (cls : SolverClass) (a_tol r_tol : R)
        (K : list (vec R)) (f0 : vec R) (t0 : R) (y0 : vec R) (h t1 : R)
        (pr : bool) :
  init cls a_tol r_tol = Ok (se_self s) ->
  let a := attempt s K f0 t0 y0 h t1 pr in
  (at_accepted a = false ->
   exists f, at_h a = at_hstep a * f /\ le (lit (2 # 10)%Q) f)
  /\ (at_accepted a = true -> at_t1_achieved a = false ->
      exists g, at_h a = h * g /\ le g (lit 10%Q)
                /\ (pr = true -> le g one))
  /\ (at_accepted a = true -> at_t1_achieved a = true -> at_h a = h).
Proof.
  intros Hinit. apply init_ok_fields in Hinit.
  destruct Hinit as (o & _ & _ & _ & _ & Hmax & Hmin & _ & _).
  cbv zeta.
  pose proof (attempt_h s K f0 t0 y0 h t1 pr) as Hh. cbv zeta in Hh.
  split; [|split].
  - intros Ha. rewrite Ha in Hh. cbn [andb negb] in Hh.
    eexists. split; [exact Hh|]. rewrite Hmin. apply py_max_ge_first.
  - intros Ha Ht. rewrite Ha, Ht in Hh. cbn [andb negb] in Hh.
    eexists. split; [exact Hh|].
    assert (Hg : le (if at_errnorm (attempt s K f0 t0 y0 h t1 pr) =? zero
                     then max_factor (se_self s)
                     else py_min (max_factor (se_self s))
                            (step_mult (se_self s)
                             * at_errnorm (attempt s K f0 t0 y0 h t1 pr)
                               ** error_exponent (se_self s)))
                    (lit 10%Q)).
    { rewrite Hmax. destruct (_ =? zero).
      - apply (lt_irrefl laws).
      - apply py_min_le_first. }
    destruct pr.
    + split.
      * apply (le_trans laws) with one; [apply py_min_le_first|].
        apply (lit_le laws). discriminate.
      * intros _. apply py_min_le_first.
    + split; [exact Hg | discriminate].
  - intros Ha Ht. rewrite Ha, Ht in Hh. exact Hh.
Qed.

End FactorBounds.

(** ** The outcomes of [solve] *)

Section SolveOutcomes.

Context {R : Type} `{Scalar R}.
Local Open Scope scalar_scope.

Context {P : Type}.
Variable self : Solver R.
Variable fcn : R -> Tensor R -> P -> Tensor R.
Variable ts : list R.
Variable y0 : Tensor R.
Variable params : P.
Variable uninit : nat -> nat -> R.


End SolveOutcomes.

(** ** A step size of zero *)

Section ZeroStep.

Context {R : Type} `{Scalar R}.
Local Open Scope scalar_scope.

Variable s : Session R.

Hypothesis zero_mul : forall x : R, zero * x = zero.
Hypothesis lt_add_zero : forall a b : R, (a <? b + zero) = (a <? b).

Variable t1 : R.

(** With [h = 0] and the target not behind, an attempt is never
    terminal, ends where it started and leaves [h = 0]. *)
Lemma attempt_zero_step K f0 t0 y0 pr :
  (t1 <? t0) = false ->
  let a := attempt s K f0 t0 y0 zero t1 pr in
  at_t1_achieved a = false /\ at_h a = zero /\ (t1 <? at_tnew a) = false.
Proof.
  intros Ht. cbv zeta.
  assert (E1 : at_t1_achieved (attempt s K f0 t0 y0 zero t1 pr) = false).
  { rewrite attempt_t1_achieved, lt_add_zero. exact Ht. }
  assert (E2 : at_hstep (attempt s K f0 t0 y0 zero t1 pr) = zero).
  { rewrite attempt_hstep, lt_add_zero, Ht. reflexivity. }
  split; [exact E1|]. split.
  - pose proof (attempt_h s K f0 t0 y0 zero t1 pr) as Hh. cbv zeta in Hh.
    rewrite E1, E2 in Hh. rewrite Hh.
    destruct (at_accepted _); cbn [andb negb]; apply zero_mul.
  - rewrite attempt_tnew, E2, lt_add_zero. exact Ht.
Qed.

Lemma single_step_loop_zero_step fuel :
  forall K f0 t0 y0 pr st' ach K',
    (t1 <? t0) = false ->
    _single_step_loop fuel s K f0 t0 y0 zero t1 pr = Ok (st', ach, K') ->
    ach = false /\ rk_h st' = zero /\ (t1 <? rk_t st') = false.
Proof.
  induction fuel as [|fuel IH]; intros K f0 t0 y0 pr st' ach K' Ht E;
    [discriminate|].
  rewrite single_step_loop_S in E.
  destruct (attempt_zero_step K f0 t0 y0 pr Ht) as (A1 & A2 & A3).
  destruct (at_accepted _).
  - assert (Est : st' = state_of (attempt s K f0 t0 y0 zero t1 pr))
      by congruence.
    assert (Eac : ach = at_t1_achieved (attempt s K f0 t0 y0 zero t1 pr))
      by congruence.
    rewrite Est, Eac. split; [exact A1|]. split; [exact A2 | exact A3].
  - rewrite A2 in E. exact (IH _ _ _ _ _ _ _ _ Ht E).
Qed.

Lemma step_loop_zero_step n fuel :
  forall K st,
    rk_h st = zero -> (t1 <? rk_t st) = false ->
    _step_loop n fuel s K st t1 = Timeout.
Proof.
  induction n as [|n IH]; intros K st Hh Ht; [reflexivity|].
  rewrite step_loop_S.
  destruct (_single_step fuel s K st t1) as [[[st1 ach] K1]|e|] eqn:E.
  - rewrite single_step_unfold, Hh in E.
    apply single_step_loop_zero_step in E; [|exact Ht].
    destruct E as (-> & Hh1 & Ht1). apply IH; assumption.
  - rewrite single_step_unfold in E.
    exfalso. exact (single_step_loop_no_raise s fuel _ _ _ _ _ _ _ _ E).
  - reflexivity.
Qed.

(** X7.  A step size of exactly zero is never left: when [0 * x = 0]
    and adding zero does not change a comparison, [_step] from a state
    with [h = 0] towards a target that is not behind the current time
    does not return, whatever the fuel; in particular [solve] does not
    return on a grid whose first two points coincide, since its first
    step size is [ts[1] - ts[0]]. *)
Theorem zero_step_size_never_returns :
  (forall fuel K st,
      rk_h st = zero -> (t1 <? rk_t st) = false ->
      _step fuel s K st t1 = Timeout)
  /\ (forall t0 rest fuel,
        se_ts s = t0 :: t1 :: rest ->
        t1 - t0 = zero -> (t1 <? t0) = false ->
        solve fuel s = Timeout).
Proof.
  split.
  - intros fuel K st Hh Ht. unfold _step.
    apply step_loop_zero_step; assumption.
  - intros t0 rest fuel Ets Hd Ht. unfold solve. rewrite Ets. simpl tl.
    rewrite solve_loop_cons. unfold _step.
    rewrite step_loop_zero_step; [reflexivity | exact Hd | exact Ht].
Qed.

End ZeroStep.

(** ** Earlier outputs do not depend on later output times *)

Section Causality.

Context {R : Type} `{Scalar R}.
Local Open Scope scalar_scope.

Lemma solve_loop_app (s : Session R) fuel :
  forall l1 l2 K st rows,
    solve_loop fuel s K st (l1 ++ l2) = Ok rows ->
    exists rows1 rows2,
      solve_loop fuel s K st l1 = Ok rows1
      /\ rows = rows1 ++ rows2
      /\ length rows1 = length l1.
Proof.
  induction l1 as [|t1 l1 IH]; intros l2 K st rows E.
  - exists [], rows. repeat split.
  - change ((t1 :: l1) ++ l2) with (t1 :: (l1 ++ l2)) in E.
    rewrite solve_loop_cons in E |- *.
    destruct (_step fuel s K st t1) as [[st' K']| |]; try discriminate.
    destruct (solve_loop fuel s K' st' (l1 ++ l2)) as [rows'| |] eqn:E2;
      try discriminate.
    injection E as <-.
    destruct (IH _ _ _ _ E2) as (rows1 & rows2 & E1 & -> & L).
    rewrite E1. exists (rk_y st' :: rows1), rows2.
    repeat split. simpl. rewrite L. reflexivity.
Qed.

Context {P : Type}.
Variable self : Solver R.
Variable fcn : R -> Tensor R -> P -> Tensor R.
Variable ts more : list R.
Variable y0 : Tensor R.
Variable params : P.
Variable uninit : nat -> nat -> R.

(** Appending output times changes the session only in its grid. *)
Lemma setup_app (s s' : Session R) :
  setup self fcn ts y0 params uninit = Ok s ->
  setup self fcn (ts ++ more) y0 params uninit = Ok s' ->
  same_kernel s' s /\ se_K s' = se_K s
  /\ exists more', se_ts s' = se_ts s ++ more'.
Proof.
  unfold setup. destruct ts as [|ts0 [|ts1 rest]]; try discriminate.
  cbn [app].
  destruct (cls_n_stages (solver_cls self));
    [|destruct (_ <? _); discriminate].
  destruct (cls_A (solver_cls self)); [|destruct (_ <? _); discriminate].
  destruct (cls_B (solver_cls self)); [|destruct (_ <? _); discriminate].
  destruct (cls_C (solver_cls self)); [|destruct (_ <? _); discriminate].
  destruct (cls_E (solver_cls self)); [|destruct (_ <? _); discriminate].
  destruct (ts1 - ts0 <? zero); cbn [bind attr]; intros E1 E2;
    injection E1 as <-; injection E2 as <-; unfold same_kernel; cbn;
    (split; [repeat split|]); (split; [reflexivity|]).
  - exists (map s_neg more). rewrite map_app. reflexivity.
  - exists more. reflexivity.
Qed.

(** X8.  Requesting further output times after [ts] does not change
    the outputs at [ts]: for a registered scheme, a non-empty [y0] and a
    derivative shaped like the state, when the run over [ts ++ more]
    returns, the run over [ts] returns too and its entries are the
    first [len(ts)] entries of the longer run. *)
Theorem later_times_do_not_change_earlier_outputs
        (s s' : Session R) (fuel : nat) (yt' : Tensor R) :
  In (solver_cls self) registered ->
  valid_tensor y0 ->
  numel (tshape y0) <> 0%nat ->
  shaped_like_state fcn params (tshape y0) ->
  setup self fcn ts y0 params uninit = Ok s ->
  setup self fcn (ts ++ more) y0 params uninit = Ok s' ->
  solve fuel s' = Ok yt' ->
  exists yt,
    solve fuel s = Ok yt
    /\ forall i, (i < length ts)%nat ->
                 exists row,
                   tindex yt i = Some (mkTensor (tshape y0) row)
                   /\ tindex yt' i = Some (mkTensor (tshape y0) row).
Proof.
  intros Hin Hv Hn Hf Hs Hs' Hyt'.
  destruct (setup_app s s' Hs Hs') as (Hk & EK & more' & Ets').
  destruct (setup_ok_fields self fcn ts y0 params uninit s Hs)
    as (a & b & r & stages & Ets & _ & _ & Eshape & Ey0 & _ & Ese & _).
  destruct (setup_kernel_shapes self fcn (ts ++ more) y0 params uninit s'
              Hs' Hin) as (HA & _ & HC & _ & HK & _).
  pose proof (session_func_width self fcn (ts ++ more) y0 params uninit s'
                Hs' Hv Hf) as Hw.
  pose proof (session_buffer_width self fcn (ts ++ more) y0 params uninit s'
                Hs') as HKw.
  unfold valid_tensor in Hv. rewrite Hv in HKw.
  assert (Hts : exists t0 t1 rest, se_ts s = t0 :: t1 :: rest
                                   /\ length (se_ts s) = length ts).
  { rewrite Ese, Ets. destruct (_ <? _); simpl; rewrite ?length_map; eauto. }
  destruct Hts as (t0 & t1 & rest & Hts & Hlen).
  destruct Hk as (Eself & Eys & Ey & Efn & EA & EB & EC & EE).
  assert (Hk : same_kernel s' s) by (unfold same_kernel; auto 10).
  (* the longer run *)
  unfold solve in Hyt'. rewrite Ets', Hts in Hyt'.
  cbn [app tl] in Hyt'.
  destruct (solve_loop fuel s' (se_K s') _ _) as [rows'| |] eqn:El;
    try discriminate.
  cbn [bind] in Hyt'.
  change (t1 :: rest ++ more') with ((t1 :: rest) ++ more') in El.
  pose proof El as Et.
  apply solve_loop_trajectory in Et. destruct Et as (sts & T & Erows).
  assert (Hst : state_width (numel (tshape y0))
                  (se_func s' t0 (se_y0 s'), t0, se_y0 s', t1 - t0)).
  { split; simpl; [apply Hw|]; rewrite Ey, Ey0; exact Hv. }
  pose proof (trajectory_width s' _ Hw _ _ _ _ _ T Hst HKw) as Hrows.
  rewrite <- Erows in Hrows.
  destruct (solve_loop_app s' fuel _ _ _ _ _ El)
    as (rows1 & rows2 & E1 & Eapp & L1).
  rewrite Eapp in Hrows. apply Forall_app in Hrows.
  destruct Hrows as [Hrows1 Hrows2].
  assert (H0 : length (se_y0 s) = numel (tshape y0))
    by (rewrite Ey0; exact Hv).
  (* the shorter run *)
  assert (Esolve : solve fuel s
                   = reshape_infer (concat (se_y0 s :: rows1)) (se_yshape s)).
  { unfold solve. rewrite Hts. cbn [tl].
    rewrite <- (solve_loop_ignores_buffer s' HA HC s fuel Hk (t1 :: rest)
                  (se_K s') (se_K s)); [| exact HK | congruence].
    rewrite <- Efn, <- Ey, E1. reflexivity. }
  assert (Hall1 : Forall (fun r => length r = numel (tshape y0))
                         (se_y0 s :: rows1)) by (constructor; assumption).
  assert (Hall : Forall (fun r => length r = numel (tshape y0))
                        (se_y0 s :: rows1 ++ rows2)).
  { constructor; [exact H0|]. apply Forall_app. split; assumption. }
  rewrite Eshape in Esolve.
  rewrite (reshape_infer_rows _ _ Hn Hall1) in Esolve.
  rewrite Eys, Ey, Eshape, Eapp in Hyt'.
  rewrite (reshape_infer_rows _ _ Hn Hall) in Hyt'.
  injection Hyt' as <-.
  eexists. split; [exact Esolve|].
  intros i Hi.
  assert (Hi1 : (i < length (se_y0 s :: rows1))%nat).
  { simpl. rewrite L1. rewrite <- Hlen, Hts in Hi. simpl in Hi |- *. lia. }
  destruct (nth_error (se_y0 s :: rows1) i) as [row|] eqn:Ei;
    [|apply nth_error_None in Ei; lia].
  assert (Ei' : nth_error (se_y0 s :: rows1 ++ rows2) i = Some row).
  { change (se_y0 s :: rows1 ++ rows2) with ((se_y0 s :: rows1) ++ rows2).
    rewrite nth_error_app1 by exact Hi1. exact Ei. }
  exists row. split.
  - exact (tindex_rows (se_y0 s :: rows1) (tshape y0) i row Hall1 Ei).
  - exact (tindex_rows (se_y0 s :: rows1 ++ rows2) (tshape y0) i row
             Hall Ei').
Qed.

End Causality.

(** ** Integrating backwards is integrating the reversed problem *)

Section TimeReversal.

Context {R : Type} `{Scalar R}.
Local Open Scope scalar_scope.
Context {P : Type}.

(** X9.  A run over a grid whose first spacing is negative is, outcome
    for outcome, the run of the reversed problem
    [-fcn(-t, y, *params)] over the negated grid, provided the first
    spacing of the negated grid is not negative. *)
Theorem decreasing_run_is_reversed_run
        (fuel : nat) (fcn : R -> Tensor R -> P -> Tensor R)
        (ts0 ts1 : R) (rest : list R) (y0 : Tensor R) (params : P)
        (cls : SolverClass) (a r : R) (u : nat -> nat -> R) :
  (ts1 - ts0 <? zero) = true ->
  ((- ts1) - (- ts0) <? zero) = false ->
  _rk_adaptive fuel fcn (ts0 :: ts1 :: rest) y0 params cls a r u
  = _rk_adaptive fuel (reversed fcn) (map s_neg (ts0 :: ts1 :: rest))
                 y0 params cls a r u.
Proof.
  intros Hdown Hup. unfold _rk_adaptive.
  destruct (init cls a r) as [self| |]; try reflexivity. cbn [bind].
  assert (E : setup self fcn (ts0 :: ts1 :: rest) y0 params u
              = setup self (reversed fcn) (map s_neg (ts0 :: ts1 :: rest))
                      y0 params u).
  { unfold setup. cbn [map]. rewrite Hdown, Hup. reflexivity. }
  rewrite E. reflexivity.
Qed.

End TimeReversal.

(** ** A constant derivative *)

Section ConstantRows.

Context {R : Type} `{Scalar R}.
Local Open Scope scalar_scope.

Lemma set_row_repeat (cv : vec R) m i :
  set_row (repeat cv m) i cv = repeat cv m.
Proof.
  revert i; induction m as [|m IH]; intros [|i]; simpl; auto.
  rewrite IH. reflexivity.
Qed.

Lemma rk_stages_repeat (cv : vec R) t y h (ac : list (vec R * R)) m :
  forall s,
    rk_stages (fun _ _ => cv) t y h ac s (repeat cv m) = repeat cv m.
Proof.
  induction ac as [|[a c] rest IH]; intros s; simpl; [reflexivity|].
  rewrite set_row_repeat. apply IH.
Qed.

Lemma removelast_repeat (cv : vec R) m :
  removelast (repeat cv (S m)) = repeat cv m.
Proof.
  induction m as [|m IH]; [reflexivity|].
  change (repeat cv (S (S m))) with (cv :: repeat cv (S m)).
  change (removelast (cv :: repeat cv (S m)))
    with (cv :: removelast (repeat cv (S m))).
  rewrite IH. reflexivity.
Qed.

(** With a constant derivative every row of the buffer is that
    constant. *)
Lemma rk_step_constant (cv : vec R) t y h A B C K :
  (1 <= length A)%nat -> length C = length A ->
  length K = S (length A) ->
  rk_step (fun _ _ => cv) t y cv h (A, B, C, K)
  = (vadd y (vmul_l h (matmulT (length y) (repeat cv (length A)) B)),
     cv, repeat cv (S (length A))).
Proof.
  intros HA HC HK.
  rewrite (rk_step_buffer_irrelevant (fun _ _ => cv) t y cv h A B C
             K (repeat cv (S (length A))) HA HC HK (repeat_length _ _)).
  unfold rk_step.
  rewrite set_row_repeat, rk_stages_repeat, removelast_repeat,
    set_row_repeat.
  reflexivity.
Qed.

Lemma vadd_map (g : R -> R) (cv : vec R) e :
  vadd (map g cv) (vmul_r cv e) = map (fun x => g x + x * e) cv.
Proof. induction cv as [|x cv IH]; simpl; [reflexivity|]. rewrite IH. auto. Qed.

Lemma matmulT_repeat_from (cv : vec R) :
  forall m E (g : R -> R),
    fold_left (fun acc ra => vadd acc (vmul_r (fst ra) (snd ra)))
              (combine (repeat cv m) E) (map g cv)
    = map (fun x => fold_left (fun acc e => acc + x * e) (firstn m E) (g x))
          cv.
Proof.
  induction m as [|m IH]; intros E g; [reflexivity|].
  destruct E as [|e E]; [reflexivity|].
  cbn [repeat combine fold_left firstn fst snd].
  rewrite vadd_map. apply (IH E (fun x => g x + x * e)).
Qed.

(** The combination of [m] equal rows: each component is the component
    times the coefficients, summed from zero in order. *)
Lemma matmulT_repeat (cv : vec R) m E :
  matmulT (length cv) (repeat cv m) E
  = map (fun x => fold_left (fun acc e => acc + x * e) (firstn m E) zero) cv.
Proof.
  unfold matmulT.
  replace (repeat zero (length cv)) with (map (fun _ : R => zero) cv).
  - apply matmulT_repeat_from.
  - induction cv as [|x cv IH]; simpl; [reflexivity|]. rewrite IH. auto.
Qed.

End ConstantRows.

Section ConstantDerivative.

Local Open Scope Q_scope.

Lemma q_zero_if_canonical (v : Q) : v = Qred v -> v == 0 -> v = 0.
Proof. intros Hc Hz. rewrite Hc. apply (Qred_complete v 0 Hz). Qed.

Lemma q_fold_value (x : Q) (l : list Q) :
  forall acc,
    fold_left (fun acc e => q_add acc (q_mul x e)) l acc
    == acc + x * qsum l.
Proof.
  induction l as [|e l IH]; intros acc; simpl.
  - ring.
  - rewrite IH. unfold q_add, q_mul. rewrite !Qred_correct. ring.
Qed.

Lemma q_fold_canonical (x : Q) (l : list Q) :
  forall acc,
    acc = Qred acc ->
    fold_left (fun acc e => q_add acc (q_mul x e)) l acc
    = Qred (fold_left (fun acc e => q_add acc (q_mul x e)) l acc).
Proof.
  induction l as [|e l IH]; intros acc Hc; simpl; [exact Hc|].
  apply IH. unfold q_add. apply Qred_complete. symmetry. apply Qred_correct.
Qed.

Lemma qsum_lit (l : list Q) : qsum (map q_lit l) == qsum l.
Proof.
  induction l as [|e l IH]; simpl; [reflexivity|].
  unfold q_lit at 1. rewrite Qred_correct, IH. reflexivity.
Qed.

Lemma q_add_eq (a b : Q) : q_add a b == a + b.
Proof. apply Qred_correct. Qed.

Lemma q_mul_eq (a b : Q) : q_mul a b == a * b.
Proof. apply Qred_correct. Qed.

Lemma q_weighted_component (y hs x acc : Q) (l : list Q) :
  qsum l == 1 -> acc == 0 ->
  q_add y (q_mul hs (fold_left (fun acc e => q_add acc (q_mul x e)) l acc))
  == y + hs * x.
Proof.
  intros Hl Hacc. rewrite q_add_eq, q_mul_eq, q_fold_value, Hl, Hacc. ring.
Qed.

Lemma q_norm_zeros (v : list Q) :
  Forall (fun x => x = 0) v -> norm v = 0.
Proof.
  intros Hv. unfold norm.
  assert (E : fold_left (fun acc x : Q => (acc + x * x)%S) v zero = 0).
  { induction Hv as [|x v Hx _ IH]; [reflexivity|].
    simpl. rewrite Hx. exact IH. }
  rewrite E. reflexivity.
Qed.

Lemma iroot_bits_ge (k : positive) (n : Z) :
  forall (bits : nat) (r : Z), (r <= iroot_bits k n bits r)%Z.
Proof.
  induction bits as [|b IH]; intros r; simpl; [lia|].
  destruct (_ <=? _)%Z.
  - specialize (IH (r + 2 ^ Z.of_nat b)%Z).
    assert (0 < 2 ^ Z.of_nat b)%Z by (apply Z.pow_pos_nonneg; lia). lia.
  - apply IH.
Qed.

Lemma q_norm_nonneg (v : list Q) : 0 <= norm v.
Proof.
  unfold norm. cbn [s_sqrt QScalar]. unfold q_sqrt.
  rewrite Qred_correct. unfold q_root, Qle. cbn [Qnum Qden].
  pose proof (iroot_bits_ge 2
                (Qnum (Qred (fold_left (fun acc x : Q => (acc + x * x)%S)
                                       v zero)))
                (S (Z.to_nat (Z.log2
                   (Qnum (Qred (fold_left (fun acc x : Q => (acc + x * x)%S)
                                          v zero)))))) 0%Z) as Hr.
  unfold iroot. lia.
Qed.

(** With a positive [atol] and an [rtol] that is not negative, the
    scale an error norm is divided by is positive. *)
Lemma q_scale_pos (a r : Q) (u v : list Q) :
  0 < a -> 0 <= r ->
  0 < (a + s_max (norm u) (norm v) * r)%S.
Proof.
  intros Ha Hr. cbn [s_add s_mul s_max QScalar]. unfold q_add, q_mul.
  rewrite !Qred_correct.
  assert (Hm : 0 <= q_max (norm u) (norm v)).
  { unfold q_max. destruct (q_ltb _ _); apply q_norm_nonneg. }
  pose proof (Qmult_le_0_compat _ _ Hm Hr) as Hp.
  lra.
Qed.

Variable s : Session Q.
Variable cv : list Q.

Hypothesis func_constant : se_func s = fun _ _ => cv.
Hypothesis stages : (1 <= length (se_A s))%nat.
Hypothesis nodes : length (se_C s) = length (se_A s).
Hypothesis components : length cv = length (se_y0 s).
Hypothesis weights : qsum (firstn (length (se_A s)) (se_B s)) == 1.
Hypothesis errors : qsum (firstn (S (length (se_A s))) (se_E s)) == 0.

Lemma constant_attempt K t0 y0 h t1 pr :
  length K = S (length (se_A s)) ->
  length y0 = length cv ->
  let a := attempt s K cv t0 y0 h t1 pr in
  at_errnorm a = 0
  /\ at_accepted a = true
  /\ at_fnew a = cv
  /\ Forall2 (fun yn yx => yn == fst yx + at_hstep a * snd yx)
             (at_ynew a) (combine y0 cv).
Proof.
  intros HK Hy. cbv zeta.
  pose proof (attempt_rk_step s K cv t0 y0 h t1 pr) as E. cbv zeta in E.
  rewrite func_constant in E.
  rewrite (rk_step_constant cv t0 y0 _ (se_A s) (se_B s) (se_C s) K
             stages nodes HK) in E.
  pose proof (f_equal (fun p => fst (fst p)) E) as Ey.
  pose proof (f_equal (fun p => snd (fst p)) E) as Ef.
  cbn [fst snd] in Ey, Ef.
  pose proof (attempt_errnorm s K cv t0 y0 h t1 pr) as Eerr.
  cbv zeta in Eerr. unfold spec_error_norm in Eerr.
  rewrite func_constant in Eerr.
  rewrite (rk_step_constant cv t0 y0 _ (se_A s) (se_B s) (se_C s) K
             stages nodes HK) in Eerr.
  assert (Herr : at_errnorm (attempt s K cv t0 y0 h t1 pr) = 0).
  { rewrite Eerr. rewrite <- components, matmulT_repeat.
    rewrite q_norm_zeros.
    - cbn [s_div QScalar]. unfold q_div. apply (Qred_complete _ 0).
      unfold Qdiv. ring.
    - unfold vmul_r. rewrite map_map. apply Forall_forall.
      intros v Hv. apply in_map_iff in Hv. destruct Hv as (x & <- & _).
      cbn [s_mul s_add QScalar].
      assert (Ez : fold_left (fun acc e : Q => q_add acc (q_mul x e))
                     (firstn (S (length (se_A s))) (se_E s)) zero = 0).
      { apply q_zero_if_canonical.
        - apply q_fold_canonical. reflexivity.
        - rewrite q_fold_value, errors. rewrite zero_is_zero. ring. }
      rewrite Ez. unfold q_mul. apply (Qred_complete _ 0). ring. }
  split; [exact Herr|]. split.
  - rewrite attempt_accepted, Herr. reflexivity.
  - split; [symmetry; exact Ef|].
    rewrite <- Ey. rewrite Hy, matmulT_repeat.
    generalize (at_hstep (attempt s K cv t0 y0 h t1 pr)). intros hs.
    clear - weights Hy. revert y0 Hy.
    induction cv as [|x cv' IH]; intros [|y y0] Hy; try discriminate;
      simpl; constructor.
    + cbn [fst snd]. apply q_weighted_component; [exact weights|].
      reflexivity.
    + apply IH. simpl in Hy. lia.
Qed.

End ConstantDerivative.

Section RegisteredTableaux.

Local Open Scope Q_scope.

(** X11.  Both registered tableaux satisfy the consistency conditions
    of an embedded Runge-Kutta pair: the weights [B] sum to one, the
    error coefficients [E] sum to zero, and every row of [A] sums to its
    node in [C]. *)
Theorem registered_tableaux_are_consistent (c : SolverClass) :
  In c registered -> tableau_consistent c = true.
Proof. intros [<-|[<-|[]]]; reflexivity. Qed.

Context {P : Type}.
Variable self : Solver Q.
Variable c : Tensor Q.
Variable ts : list Q.
Variable y0 : Tensor Q.
Variable params : P.
Variable uninit : nat -> nat -> Q.
Variable s : Session Q.

Hypothesis scheme : In (solver_cls self) registered.
Hypothesis setup_ok :
  setup self (constant_fcn c) ts y0 params uninit = Ok s.

Lemma setup_tableau_sums :
  qsum (firstn (length (se_A s)) (se_B s)) == 1
  /\ qsum (firstn (S (length (se_A s))) (se_E s)) == 0.
Proof.
  pose proof setup_ok as Hs. unfold setup in Hs.
  destruct ts as [|ts0 [|ts1 rest]]; try discriminate.
  destruct scheme as [Hc|[Hc|[]]]; rewrite <- Hc in Hs;
    cbn [bind attr RK23 RK45 cls_n_stages cls_A cls_B cls_C cls_E] in Hs;
    destruct (s_ltb _ _); injection Hs as Hs; rewrite <- Hs;
    cbn [se_A se_B se_E]; split; vm_compute; reflexivity.
Qed.

(** X10.  On exact rationals, with a positive [atol] and an [rtol]
    that is not negative, both registered schemes integrate a constant
    derivative exactly and never reject it: whatever the step size, the
    scale the error is divided by is positive, the error norm of an
    attempt is [0], the attempt is accepted, each component of the new
    state is [y + hstep * c], and [_single_step] returns after this one
    attempt. *)
Theorem constant_derivative_is_never_rejected
        (K : list (list Q)) (t0 : Q) (y : list Q) (h t1 : Q) (pr : bool) :
  0 < atol self ->
  0 <= rtol self ->
  length (tdata c) = length (tdata y0) ->
  length K = length (se_K s) ->
  length y = length (tdata y0) ->
  let cv := se_func s t0 y in
  let a := attempt s K cv t0 y h t1 pr in
  0 < (atol (se_self s)
       + s_max (norm y) (norm (at_ynew a)) * rtol (se_self s))%S
  /\ at_errnorm a = 0
  /\ at_accepted a = true
  /\ at_fnew a = cv
  /\ Forall2 (fun yn yx => yn == fst yx + at_hstep a * snd yx)
             (at_ynew a) (combine y cv)
  /\ forall fuel,
      _single_step_loop (S fuel) s K cv t0 y h t1 pr
      = Ok (state_of a, at_t1_achieved a, at_K a).
Proof.
  intros Hatol Hrtol Hc HK Hy.
  destruct (setup_ok_fields self (constant_fcn c) ts y0 params uninit s
              setup_ok)
    as (a0 & b0 & r0 & st & _ & _ & Eself & _ & Ey0 & _ & _ & Efunc).
  destruct (setup_kernel_shapes self (constant_fcn c) ts y0 params uninit s
              setup_ok scheme) as (HA & _ & HC & _ & HKs & _).
  destruct setup_tableau_sums as [HB HE].
  set (cv := se_func s t0 y).
  assert (Hfun : se_func s = fun _ _ => cv).
  { unfold cv. rewrite Efunc. destruct (s_ltb _ _); reflexivity. }
  assert (Hcv : length cv = length (se_y0 s)).
  { unfold cv. rewrite Efunc, Ey0.
    destruct (s_ltb _ _); unfold constant_fcn; cbn [tdata];
      rewrite ?vneg_length; exact Hc. }
  assert (HK' : length K = S (length (se_A s))) by congruence.
  assert (Hy' : length y = length cv) by (rewrite Hcv, Ey0; exact Hy).
  destruct (constant_attempt s cv Hfun HA HC Hcv HB HE K t0 y h t1 pr HK' Hy')
    as (H1 & H2 & H3 & H4).
  cbv zeta. split.
  { rewrite Eself. apply q_scale_pos; assumption. }
  repeat split; try assumption.
  intros fuel. rewrite single_step_loop_S, H2. reflexivity.
Qed.

End RegisteredTableaux.

(** ** The entries of the output *)

Section OutputEntries.

Context {R : Type} `{Scalar R}.
Context {P : Type}.

(** X12.  What [solve] returns starts with the initial state: for a
    registered scheme and a derivative shaped like the state, entry 0
    of the returned tensor is [y0] itself, and every entry has the
    shape of [y0] and as many components as [y0] has elements. *)
Theorem solve_output_begins_with_initial_state
        (self : Solver R) (fcn : R -> Tensor R -> P -> Tensor R)
        (ts : list R) (y0 : Tensor R) (params : P)
        (uninit : nat -> nat -> R)
        (s : Session R) (fuel : nat) (yt : Tensor R) :
  In (solver_cls self) registered ->
  valid_tensor y0 ->
  shaped_like_state fcn params (tshape y0) ->
  setup self fcn ts y0 params uninit = Ok s ->
  solve fuel s = Ok yt ->
  tindex yt 0 = Some y0
  /\ forall i, (i < length ts)%nat ->
               exists row, tindex yt i = Some (mkTensor (tshape y0) row)
                           /\ length row = numel (tshape y0).
Proof.
  intros Hin Hv Hf Hs E.
  assert (Hn : numel (tshape y0) <> 0%nat).
  { intros Hn.
    destruct (setup_ok_fields self fcn ts y0 params uninit s Hs)
      as (a & b & r & stages & _ & _ & _ & Eshape & _).
    apply (solve_empty_shape s fuel yt); [|exact E].
    rewrite Eshape. exact Hn. }
  destruct (solve_returns_one_state_per_time self fcn ts y0 params uninit
              s fuel Hin Hv Hn Hf Hs)
    as (_ & [Ht | (yt' & E' & _ & Hrows & H0)]); [congruence|].
  assert (yt' = yt) by congruence. subst yt'.
  split; assumption.
Qed.

End OutputEntries.

(** ** The shapes the kernel relies on are kept *)

Section ShapesKept.

Context {R : Type} `{Scalar R}.
Local Open Scope scalar_scope.

(** X13.  [rk_step] keeps the shapes it relies on: on inputs of fitting
    shapes and a derivative that keeps the number of components, the
    new state and the new derivative have the components of the state,
    and the buffer keeps its rows and their width, so that it can be
    handed to the next attempt as it is. *)
Theorem rk_step_keeps_kernel_shapes
        (func : R -> vec R -> vec R) (t : R) (y f : vec R) (h : R)
        (A : list (vec R)) (B C : vec R) (K : list (vec R)) :
  kernel_shapes (length y) A B C K ->
  keeps_width (length y) func ->
  length f = length y ->
  let r := rk_step func t y f h (A, B, C, K) in
  length (fst (fst r)) = length y
  /\ length (snd (fst r)) = length y
  /\ kernel_shapes (length y) A B C (snd r).
Proof.
  intros (HA & HB & HC & Hrow & HK & HW) Hf Hl.
  destruct (rk_step_width func t y h (length y) f A B C K Hf eq_refl Hl HW)
    as (W1 & W2 & W3).
  cbv zeta. split; [exact W1|]. split; [exact W2|].
  repeat split; try assumption.
  unfold rk_step. cbv beta iota zeta. cbn [snd].
  rewrite set_row_length, rk_stages_length, set_row_length. exact HK.
Qed.

End ShapesKept.

(** ** The further properties on concrete runs *)

Section MoreRuns.

Import Examples MoreExamples.
Local Open Scope scalar_scope.

Lemma q_zero_mul (x : Q) : (zero * x)%S = zero.
Proof.
  rewrite zero_is_zero. simpl. unfold q_mul.
  apply (Qred_complete _ 0%Q). ring.
Qed.

Lemma q_lt_add_zero (a b : Q) : (a <? b + zero)%S = (a <? b)%S.
Proof.
  rewrite zero_is_zero. apply Bool.eq_iff_eq_true.
  rewrite !q_lt_true. simpl. unfold q_add. rewrite Qred_correct.
  split; intros Hlt; lra.
Qed.

Lemma rk_step_ignores_buffer_content_witness :
  rk_step decay 0%Q [1%Q] [(-1)%Q] (1 # 10)%Q (A23, B23, C23, K_one)
  = rk_step decay 0%Q [1%Q] [(-1)%Q] (1 # 10)%Q
            (A23, B23, C23, repeat [7%Q] 4).
Proof.
  apply rk_step_ignores_buffer_content; simpl; try reflexivity; lia.
Defined.

Lemma result_ignores_uninitialised_memory_witness :
  rk23_adaptive 50 fcn_decay grid_up (scalar_state 1) tt
                doc_atol doc_rtol blank
  = rk23_adaptive 50 fcn_decay grid_up (scalar_state 1) tt
                  doc_atol doc_rtol noise.
Proof.
  unfold rk23_adaptive.
  apply result_ignores_uninitialised_memory. left. reflexivity.
Defined.

Lemma step_state_carries_current_derivative_witness :
  exists s yt,
    setup (solver23 doc_atol doc_rtol) fcn_decay grid_up (scalar_state 1)
          tt blank = Ok s
    /\ solve 50 s = Ok yt
    /\ exists sts,
        tdata yt = concat (se_y0 s :: map rk_y sts)
        /\ Forall (fun st => rk_f st = se_func s (rk_t st) (rk_y st)) sts.
Proof.
  eexists. eexists. split; [reflexivity|].
  split; [vm_compute; reflexivity|].
  match goal with
  | |- exists sts, tdata ?yt = concat (se_y0 ?s :: _) /\ _ =>
      assert (E0 : solve 50 s = Ok yt) by (vm_compute; reflexivity);
      pose proof (step_state_carries_current_derivative s 50 yt E0) as W
  end.
  destruct W as (t0 & ts1 & rest & sts & _ & _ & Hd & F).
  exists sts. split; [exact Hd|]. inversion F; assumption.
Defined.

Lemma step_never_passes_the_target_witness :
  exists s st' K',
    setup (solver23 doc_atol doc_rtol) fcn_still grid_unit (scalar_state 1)
          tt blank = Ok s
    /\ _step 2 s (se_K s) ([0%Q], 0%Q, [1%Q], 1%Q) 1%Q = Ok (st', K')
    /\ exists mids Klast stl,
        Substeps 2 s 1%Q (se_K s) ([0%Q], 0%Q, [1%Q], 1%Q) mids
                 Klast stl st' K'
        /\ Forall (fun m => le (rk_t m) 1%Q) mids.
Proof.
  eexists. eexists. eexists. split; [reflexivity|].
  split; [vm_compute; reflexivity|].
  match goal with
  | |- exists mids Klast stl, Substeps 2 ?s ?t1 ?K ?st _ _ _ ?st' ?K' /\ _ =>
      assert (E0 : _step 2 s K st t1 = Ok (st', K'))
        by (vm_compute; reflexivity);
      pose proof (step_never_passes_the_target s 2 K st t1 st' K' E0) as W
  end.
  destruct W as (mids & Klast & stl & Sb & F & _).
  exists mids, Klast, stl. split; [exact Sb | exact F].
Defined.

Lemma step_size_changes_by_a_bounded_factor_witness :
  exists s,
    setup (solver23 1 0) fcn_kick grid_unit (scalar_state 0) tt blank = Ok s
    /\ let a := attempt s (se_K s) [0%Q] 0%Q [0%Q] 1%Q 1%Q false in
       at_accepted a = false
       /\ exists f, at_h a = (at_hstep a * f)%S /\ le (lit (2 # 10)%Q) f.
Proof.
  eexists. split; [reflexivity|]. cbv zeta.
  split; [vm_compute; reflexivity|].
  match goal with
  | |- exists f, at_h (attempt ?s ?K ?f0 ?t0 ?y0 ?h ?t1 ?pr) = _ /\ _ =>
      pose proof (step_size_changes_by_a_bounded_factor s QScalar_laws
                    RK23 1%Q 0%Q K f0 t0 y0 h t1 pr (init_RK23 1%Q 0%Q))
        as W
  end.
  cbv zeta in W. destruct W as (W1 & _ & _).
  apply W1. vm_compute. reflexivity.
Defined.


(** The grid [0, 0, 1]: the first step size is zero and the run does
    not return. *)
Lemma zero_step_size_never_returns_witness :
  exists s,
    setup (solver23 doc_atol doc_rtol) fcn_decay grid_flat (scalar_state 1)
          tt blank = Ok s
    /\ forall fuel, solve fuel s = Timeout.
Proof.
  eexists. split; [reflexivity|]. intros fuel.
  match goal with
  | |- solve fuel ?s = _ =>
      destruct (zero_step_size_never_returns s q_zero_mul q_lt_add_zero 0%Q)
        as [_ W]
  end.
  apply (W 0%Q [1%Q] fuel); reflexivity.
Defined.

Lemma later_times_do_not_change_earlier_outputs_witness :
  exists s s' yt',
    setup (solver23 doc_atol doc_rtol) fcn_decay grid_up (scalar_state 1)
          tt blank = Ok s
    /\ setup (solver23 doc_atol doc_rtol) fcn_decay grid_up_more
             (scalar_state 1) tt blank = Ok s'
    /\ solve 50 s' = Ok yt'
    /\ exists yt,
        solve 50 s = Ok yt
        /\ forall i, (i < 3)%nat ->
                     exists row,
                       tindex yt i = Some (mkTensor [1%nat] row)
                       /\ tindex yt' i = Some (mkTensor [1%nat] row).
Proof.
  eexists. eexists. eexists. split; [reflexivity|].
  split; [reflexivity|]. split; [vm_compute; reflexivity|].
  match goal with
  | |- exists yt, solve 50 ?s = _ /\ (forall i, _ -> exists row,
                    _ /\ tindex ?yt' i = _) =>
      assert (E0 : exists s', setup (solver23 doc_atol doc_rtol) fcn_decay
                                (grid_up ++ [(3 # 10)%Q]) (scalar_state 1)
                                tt blank = Ok s' /\ solve 50 s' = Ok yt')
        by (eexists; split; [reflexivity | vm_compute; reflexivity]);
      destruct E0 as (s' & Es' & Ey');
      exact (later_times_do_not_change_earlier_outputs
               (solver23 doc_atol doc_rtol) fcn_decay grid_up [(3 # 10)%Q]
               (scalar_state 1) tt blank s s' 50 yt' (or_introl eq_refl)
               eq_refl ltac:(discriminate) (fcn_decay_shaped _) eq_refl
               Es' Ey')
  end.
Defined.

Lemma decreasing_run_is_reversed_run_witness :
  rk23_adaptive 50 fcn_decay grid_down (scalar_state 1) tt
                doc_atol doc_rtol blank
  = rk23_adaptive 50 (reversed fcn_decay) (map s_neg grid_down)
                  (scalar_state 1) tt doc_atol doc_rtol blank.
Proof.
  unfold rk23_adaptive, grid_down.
  apply decreasing_run_is_reversed_run; reflexivity.
Defined.

(** The derivative [3] from [y = 1] with [h = 1/2] towards [t1 = 2]. *)
Lemma constant_derivative_is_never_rejected_witness :
  exists s,
    setup (solver23 doc_atol doc_rtol)
          (constant_fcn (scalar_state 3)) grid_unit (scalar_state 1)
          tt blank = Ok s
    /\ let a := attempt s (se_K s) [3%Q] 0%Q [1%Q] (1 # 2)%Q 2%Q false in
       at_errnorm a = 0%Q /\ at_accepted a = true
       /\ at_ynew a = [(5 # 2)%Q].
Proof.
  eexists. split; [reflexivity|].
  match goal with
  | |- let a := attempt ?s ?K ?cv ?t0 ?y ?h ?t1 ?pr in _ =>
      pose proof (constant_derivative_is_never_rejected
                    (solver23 doc_atol doc_rtol) (scalar_state 3) grid_unit
                    (scalar_state 1) tt blank s (or_introl eq_refl) eq_refl
                    K t0 y h t1 pr eq_refl ltac:(discriminate)
                    eq_refl eq_refl eq_refl) as W
  end.
  cbv zeta in W. destruct W as (_ & W1 & W2 & _).
  cbv zeta. split; [exact W1|]. split; [exact W2|].
  vm_compute. reflexivity.
Defined.

Lemma registered_tableaux_are_consistent_witness :
  tableau_consistent RK45 = true.
Proof.
  apply registered_tableaux_are_consistent. right. left. reflexivity.
Defined.

Lemma solve_output_begins_with_initial_state_witness :
  exists s yt,
    setup (solver23 doc_atol doc_rtol) fcn_decay grid_up (scalar_state 1)
          tt blank = Ok s
    /\ solve 50 s = Ok yt
    /\ tindex yt 0 = Some (scalar_state 1).
Proof.
  eexists. eexists. split; [reflexivity|].
  split; [vm_compute; reflexivity|].
  match goal with
  | |- tindex ?yt 0 = _ =>
      assert (E0 : exists s, setup (solver23 doc_atol doc_rtol) fcn_decay
                               grid_up (scalar_state 1) tt blank = Ok s
                             /\ solve 50 s = Ok yt)
        by (eexists; split; [reflexivity | vm_compute; reflexivity]);
      destruct E0 as (s & Es & Ey);
      exact (proj1 (solve_output_begins_with_initial_state
                      (solver23 doc_atol doc_rtol) fcn_decay grid_up
                      (scalar_state 1) tt blank s 50 yt (or_introl eq_refl)
                      eq_refl (fcn_decay_shaped _) Es Ey))
  end.
Defined.

Lemma rk_step_keeps_kernel_shapes_witness :
  let r := rk_step decay 0%Q [1%Q] [(-1)%Q] (1 # 10)%Q
                   (A23, B23, C23, K_one) in
  length (fst (fst r)) = 1%nat
  /\ length (snd (fst r)) = 1%nat
  /\ kernel_shapes 1 A23 B23 C23 (snd r).
Proof.
  exact (rk_step_keeps_kernel_shapes decay 0%Q [1%Q] [(-1)%Q] (1 # 10)%Q
           A23 B23 C23 K_one kernel_shapes_23 (decay_keeps_width 1)
           eq_refl).
Defined.

End MoreRuns.
